(** * A verified model of the EDICT2 line parser (package [edict])

    The development follows the most complete revision of [edict.go] (the
    one with [parseKey], [fixKey] and the [identifierClass] classifier) and
    the taxonomy file whose constants are spelt [Adj_i], [Adj_no], ...: the
    annotation taxonomy ([Detail], [DetailString], [DetailFor]), the identifier
    classifier ([parseIdentifier]), the two character-level state machines
    ([parseGloss], [parseKey]), the key normaliser ([fixKey]), the line
    assembler ([parseLine]) and the batch driver ([Parse]).

    Modelling conventions.
    - A Go [string] is modelled by the sequence of runes that [range] yields
      on it, so a string is a [list Z] of code points.  For well-formed UTF-8
      text this loses nothing: every delimiter the parser looks at is ASCII,
      and [strings.TrimSpace] is defined on runes.
    - A Go function with several results returns a tuple; the [error] result
      is an [option error], [None] standing for [nil].
    - Indexing or slicing out of range panics; functions that index are
      written in the [go] monad whose second constructor is the panic.
    - Go maps are stdpp [gmap]s. *)

From Stdlib Require Import ZArith Ascii.
From stdpp Require Import base decidable option countable list strings gmap.

Open Scope Z_scope.
Set Warnings "-clear-no-such-hyp".

(** ** Strings as rune sequences *)

Abbreviation rune := Z (only parsing).
Abbreviation gostring := (list Z) (only parsing).

(** The rune of an ASCII character, and the rune sequence of an ASCII literal. *)
Definition rn (a : ascii) : rune := Z.of_nat (nat_of_ascii a).
Definition runes (s : string) : gostring := rn <$> String.list_ascii_of_string s.

(** ** The annotation taxonomy *)

(** [type Detail int], with the constants in [iota] order. *)
Inductive Detail : Set :=
  | Adj_i | Adj_na | Adj_no | Adj_pn | Adj_t | Adj_f | Adj | Adv | Adv_n
  | Adv_to | Aux | Aux_v | Aux_adj | Conj | Ctr | Exp | Int | Iv | N | N_adv
  | N_pref | N_suf | N_t | Num | Pn | Pref | Prt | Suf | V1 | V2a_s | V4h
  | V4r | V5 | V5aru | V5b | V5g | V5k | V5k_s | V5m | V5n | V5r | V5r_i | V5s
  | V5t | V5u | V5u_s | V5uru | V5z | Vz | Vi | Vk | Vn | Vs | Vs_c | Vs_i
  | Vs_s | Vt | Buddh | MA | Comp | Food | Geom | Gram | Ling | Math | Mil
  | Physics | X | Abbr | Arch | Ateji | Chn | Col | Derog | EK | Ek | Fam
  | Fem | Gikun | Hon | Hum | Ik | IK | Id | Io | M_sl | Male | Male_sl | OK
  | Obs | Obsc | Ok | On_mim | Poet | Pol | Rare | Sens | Sl | UK | Uk | Vulg
  | Common.

(** The numeric value [iota] gives each constant. *)
Definition Detail_iota (d : Detail) : Z :=
  match d with
  | Adj_i => 0 | Adj_na => 1 | Adj_no => 2 | Adj_pn => 3 | Adj_t => 4
  | Adj_f => 5 | Adj => 6 | Adv => 7 | Adv_n => 8 | Adv_to => 9 | Aux => 10
  | Aux_v => 11 | Aux_adj => 12 | Conj => 13 | Ctr => 14 | Exp => 15
  | Int => 16 | Iv => 17 | N => 18 | N_adv => 19 | N_pref => 20 | N_suf => 21
  | N_t => 22 | Num => 23 | Pn => 24 | Pref => 25 | Prt => 26 | Suf => 27
  | V1 => 28 | V2a_s => 29 | V4h => 30 | V4r => 31 | V5 => 32 | V5aru => 33
  | V5b => 34 | V5g => 35 | V5k => 36 | V5k_s => 37 | V5m => 38 | V5n => 39
  | V5r => 40 | V5r_i => 41 | V5s => 42 | V5t => 43 | V5u => 44 | V5u_s => 45
  | V5uru => 46 | V5z => 47 | Vz => 48 | Vi => 49 | Vk => 50 | Vn => 51
  | Vs => 52 | Vs_c => 53 | Vs_i => 54 | Vs_s => 55 | Vt => 56 | Buddh => 57
  | MA => 58 | Comp => 59 | Food => 60 | Geom => 61 | Gram => 62 | Ling => 63
  | Math => 64 | Mil => 65 | Physics => 66 | X => 67 | Abbr => 68 | Arch => 69
  | Ateji => 70 | Chn => 71 | Col => 72 | Derog => 73 | EK => 74 | Ek => 75
  | Fam => 76 | Fem => 77 | Gikun => 78 | Hon => 79 | Hum => 80 | Ik => 81
  | IK => 82 | Id => 83 | Io => 84 | M_sl => 85 | Male => 86 | Male_sl => 87
  | OK => 88 | Obs => 89 | Obsc => 90 | Ok => 91 | On_mim => 92 | Poet => 93
  | Pol => 94 | Rare => 95 | Sens => 96 | Sl => 97 | UK => 98 | Uk => 99
  | Vulg => 100 | Common => 101
  end.

Definition Detail_of_iota (z : Z) : option Detail :=
  match z with
  | 0 => Some Adj_i | 1 => Some Adj_na | 2 => Some Adj_no | 3 => Some Adj_pn
  | 4 => Some Adj_t | 5 => Some Adj_f | 6 => Some Adj | 7 => Some Adv
  | 8 => Some Adv_n | 9 => Some Adv_to | 10 => Some Aux | 11 => Some Aux_v
  | 12 => Some Aux_adj | 13 => Some Conj | 14 => Some Ctr | 15 => Some Exp
  | 16 => Some Int | 17 => Some Iv | 18 => Some N | 19 => Some N_adv
  | 20 => Some N_pref | 21 => Some N_suf | 22 => Some N_t | 23 => Some Num
  | 24 => Some Pn | 25 => Some Pref | 26 => Some Prt | 27 => Some Suf
  | 28 => Some V1 | 29 => Some V2a_s | 30 => Some V4h | 31 => Some V4r
  | 32 => Some V5 | 33 => Some V5aru | 34 => Some V5b | 35 => Some V5g
  | 36 => Some V5k | 37 => Some V5k_s | 38 => Some V5m | 39 => Some V5n
  | 40 => Some V5r | 41 => Some V5r_i | 42 => Some V5s | 43 => Some V5t
  | 44 => Some V5u | 45 => Some V5u_s | 46 => Some V5uru | 47 => Some V5z
  | 48 => Some Vz | 49 => Some Vi | 50 => Some Vk | 51 => Some Vn
  | 52 => Some Vs | 53 => Some Vs_c | 54 => Some Vs_i | 55 => Some Vs_s
  | 56 => Some Vt | 57 => Some Buddh | 58 => Some MA | 59 => Some Comp
  | 60 => Some Food | 61 => Some Geom | 62 => Some Gram | 63 => Some Ling
  | 64 => Some Math | 65 => Some Mil | 66 => Some Physics | 67 => Some X
  | 68 => Some Abbr | 69 => Some Arch | 70 => Some Ateji | 71 => Some Chn
  | 72 => Some Col | 73 => Some Derog | 74 => Some EK | 75 => Some Ek
  | 76 => Some Fam | 77 => Some Fem | 78 => Some Gikun | 79 => Some Hon
  | 80 => Some Hum | 81 => Some Ik | 82 => Some IK | 83 => Some Id
  | 84 => Some Io | 85 => Some M_sl | 86 => Some Male | 87 => Some Male_sl
  | 88 => Some OK | 89 => Some Obs | 90 => Some Obsc | 91 => Some Ok
  | 92 => Some On_mim | 93 => Some Poet | 94 => Some Pol | 95 => Some Rare
  | 96 => Some Sens | 97 => Some Sl | 98 => Some UK | 99 => Some Uk
  | 100 => Some Vulg | 101 => Some Common
  | _ => None
  end.

#[global] Instance Detail_eq_dec : EqDecision Detail.
Proof.
  intros a b. destruct (decide (Detail_iota a = Detail_iota b)) as [E|E].
  - left. apply (f_equal Detail_of_iota) in E.
    by destruct a; destruct b; simplify_eq/=.
  - right. congruence.
Defined.

#[global] Instance Detail_countable : Countable Detail :=
  inj_countable Detail_iota Detail_of_iota
    (λ d, match d with Adj_i | _ => eq_refl end).

(** The literal of [var DetailString = map[Detail]string{...}], in source
    order. *)
Definition DetailString_literal : list (Detail * gostring) :=
  [ (Adj_i, runes "adj-i"); (Adj_na, runes "adj-na");
    (Adj_no, runes "adj-no"); (Adj_pn, runes "adj-pn");
    (Adj_t, runes "adj-t"); (Adj_f, runes "adj-f"); (Adj, runes "adj");
    (Adv, runes "adv"); (Adv_n, runes "adv-n"); (Adv_to, runes "adv-to");
    (Aux, runes "aux"); (Aux_v, runes "aux-v"); (Aux_adj, runes "aux-adj");
    (Conj, runes "conj"); (Ctr, runes "ctr"); (Exp, runes "exp");
    (Int, runes "int"); (Iv, runes "iv"); (N, runes "n");
    (N_adv, runes "n-adv"); (N_pref, runes "n-pref"); (N_suf, runes "n-suf");
    (N_t, runes "n-t"); (Num, runes "num"); (Pn, runes "pn");
    (Pref, runes "pref"); (Prt, runes "prt"); (Suf, runes "suf");
    (V1, runes "v1"); (V2a_s, runes "v2a-s"); (V4h, runes "v4h");
    (V4r, runes "v4r"); (V5, runes "v5"); (V5aru, runes "v5aru");
    (V5b, runes "v5b"); (V5g, runes "v5g"); (V5k, runes "v5k");
    (V5k_s, runes "v5k-s"); (V5m, runes "v5m"); (V5n, runes "v5n");
    (V5r, runes "v5r"); (V5r_i, runes "v5r-i"); (V5s, runes "v5s");
    (V5t, runes "v5t"); (V5u, runes "v5u"); (V5u_s, runes "v5u-s");
    (V5uru, runes "v5uru"); (V5z, runes "v5z"); (Vz, runes "vz");
    (Vi, runes "vi"); (Vk, runes "vk"); (Vn, runes "vn"); (Vs, runes "vs");
    (Vs_c, runes "vs-c"); (Vs_i, runes "vs-i"); (Vs_s, runes "vs-s");
    (Vt, runes "vt"); (Buddh, runes "buddh"); (MA, runes "mA");
    (Comp, runes "comp"); (Food, runes "food"); (Geom, runes "geom");
    (Gram, runes "gram"); (Ling, runes "ling"); (Math, runes "math");
    (Mil, runes "mil"); (Physics, runes "physics"); (X, runes "x");
    (Abbr, runes "abbr"); (Arch, runes "arch"); (Ateji, runes "ateji");
    (Chn, runes "chn"); (Col, runes "col"); (Derog, runes "derog");
    (EK, runes "eK"); (Ek, runes "ek"); (Fam, runes "fam");
    (Fem, runes "fem"); (Gikun, runes "gikun"); (Hon, runes "hon");
    (Hum, runes "hum"); (Ik, runes "ik"); (IK, runes "iK"); (Id, runes "id");
    (Io, runes "io"); (M_sl, runes "m-sl"); (Male, runes "male");
    (Male_sl, runes "male-sl"); (OK, runes "oK"); (Obs, runes "obs");
    (Obsc, runes "obsc"); (Ok, runes "ok"); (On_mim, runes "on-mim");
    (Poet, runes "poet"); (Pol, runes "pol"); (Rare, runes "rare");
    (Sens, runes "sens"); (Sl, runes "sl"); (UK, runes "uK");
    (Uk, runes "uk"); (Vulg, runes "vulg"); (Common, runes "P") ].

Definition DetailString : gmap Detail gostring := list_to_map DetailString_literal.

(** [init]: [for detail, str := range DetailString { DetailFor[str] = detail }].
    Go leaves the iteration order of a map unspecified, so the loop is
    parameterised by the order in which the pairs are visited. *)
Definition init_loop (order : list (Detail * gostring)) : gmap gostring Detail :=
  foldl (λ acc p, <[p.2 := p.1]> acc) ∅ order.

Definition DetailFor : gmap gostring Detail := init_loop (map_to_list DetailString).

(** [func (d Detail) String() string]: a missing key reads as the empty string. *)
Definition Detail_String (d : Detail) : gostring := default [] (DetailString !! d).

(** ** The Go runtime and library functions the parser calls *)

(** A computation that either finishes with a value or panics. *)
Inductive go (A : Type) : Type :=
| Done (a : A)
| Panic.
Arguments Done {A} a.
Arguments Panic {A}.

#[global] Instance go_ret : MRet go := λ A a, Done a.
#[global] Instance go_bind : MBind go :=
  λ A B k m, match m with Done a => k a | Panic => Panic end.

(** [len(s)] is an [int]. *)
Definition len {A} (l : list A) : Z := Z.of_nat (length l).

(** [s[i]]: a run-time panic when [i] is out of range. *)
Definition index {A} (l : list A) (i : Z) : go A :=
  if decide (0 ≤ i) then
    match l !! Z.to_nat i with Some a => Done a | None => Panic end
  else Panic.

(** [s[lo:hi]] on a slice whose capacity is its length. *)
Definition slice {A} (l : list A) (lo hi : Z) : go (list A) :=
  if decide (0 ≤ lo ∧ lo ≤ hi ∧ hi ≤ len l)
  then Done (take (Z.to_nat (hi - lo)) (drop (Z.to_nat lo) l))
  else Panic.

(** [unicode.IsSpace]: the Latin-1 cases, then the White_Space property. *)
Definition IsSpace (r : rune) : bool :=
  bool_decide (9 ≤ r ≤ 13) || bool_decide (r = 32) || bool_decide (r = 133)
  || bool_decide (r = 160) || bool_decide (r = 5760)
  || bool_decide (8192 ≤ r ≤ 8202) || bool_decide (8232 ≤ r ≤ 8233)
  || bool_decide (r = 8239) || bool_decide (r = 8287) || bool_decide (r = 12288).

Fixpoint TrimLeftSpace (s : gostring) : gostring :=
  match s with
  | c :: s' => if IsSpace c then TrimLeftSpace s' else s
  | [] => []
  end.

(** [strings.TrimSpace]. *)
Definition TrimSpace (s : gostring) : gostring :=
  reverse (TrimLeftSpace (reverse (TrimLeftSpace s))).

(** [strings.HasPrefix], [strings.TrimPrefix], [strings.HasSuffix],
    [strings.TrimSuffix]. *)
Fixpoint HasPrefix (s prefix : gostring) : bool :=
  match prefix, s with
  | [], _ => true
  | p :: prefix', c :: s' => bool_decide (c = p) && HasPrefix s' prefix'
  | _ :: _, [] => false
  end.

Definition TrimPrefix (s prefix : gostring) : gostring :=
  if HasPrefix s prefix then drop (length prefix) s else s.

Definition HasSuffix (s suffix : gostring) : bool :=
  HasPrefix (reverse s) (reverse suffix).

Definition TrimSuffix (s suffix : gostring) : gostring :=
  if HasSuffix s suffix then take (length s - length suffix) s else s.

(** [strings.ContainsRune]. *)
Definition ContainsRune (s : gostring) (r : rune) : bool := bool_decide (r ∈ s).

(** [strings.Index]: the position of the first occurrence, [None] for [-1]. *)
Fixpoint Index (s substr : gostring) : option nat :=
  if HasPrefix s substr then Some 0%nat
  else match s with
       | [] => None
       | _ :: s' => S <$> Index s' substr
       end.

(** [strings.Count] for a non-empty separator: the loop
    [for { i := Index(s, substr); if i == -1 { return n }; n++;
    s = s[i+len(substr):] }].  Every round drops at least one rune, so
    [length s] rounds are always enough (lemma [Count_loop_fuel]). *)
Fixpoint Count_loop (fuel : nat) (s substr : gostring) : nat :=
  match fuel with
  | O => 0
  | S fuel' =>
      match Index s substr with
      | None => 0
      | Some i => S (Count_loop fuel' (drop (i + length substr) s) substr)
      end
  end%nat.

Definition Count (s substr : gostring) : nat :=
  if decide (substr = []) then S (length s) else Count_loop (length s) s substr.

(** [strings.Split(s, sep)], that is [genSplit(s, sep, 0, -1)]: an empty
    separator explodes [s] into its runes; otherwise [n = Count(s, sep) + 1]
    and the loop cuts at most [n - 1] times. *)
Fixpoint genSplit_loop (n : nat) (s sep : gostring) : list gostring :=
  match n with
  | O => [s]
  | S n' =>
      match Index s sep with
      | None => [s]
      | Some m => take m s :: genSplit_loop n' (drop (m + length sep) s) sep
      end
  end.

Definition Split (s sep : gostring) : list gostring :=
  if decide (sep = []) then (λ c, [c]) <$> s
  else genSplit_loop (Count s sep) s sep.

(** [strconv.Atoi] on a 64-bit platform: an optional sign, at least one
    decimal digit, and a value that fits an [int]; [None] is a non-nil error. *)
Definition digit (c : rune) : option Z :=
  if decide (48 ≤ c ≤ 57) then Some (c - 48) else None.

Fixpoint digits (acc : Z) (s : gostring) : option Z :=
  match s with
  | [] => Some acc
  | c :: s' => d ← digit c; digits (acc * 10 + d) s'
  end.

Definition Atoi (s : gostring) : option Z :=
  let '(neg, body) :=
    match s with
    | c :: s' =>
        if decide (c = rn "-") then (true, s')
        else if decide (c = rn "+") then (false, s') else (false, s)
    | [] => (false, [])
    end in
  match body with
  | [] => None
  | _ => n ← digits 0 body;
         let v := if neg : bool then - n else n in
         if decide (- 2 ^ 63 ≤ v < 2 ^ 63) then Some v else None
  end.

(** ** Data model *)

(** [type Gloss struct]. *)
Record Gloss : Type := mkGloss {
  Gloss_Definition : gostring;
  Gloss_Information : list Detail;
  Gloss_Xref : list gostring;
}.

(** [type Entry struct]. *)
Record Entry : Type := mkEntry {
  Entry_Kanji : list gostring;
  Entry_Kana : list gostring;
  Entry_Information : list Detail;
  Entry_Gloss : list Gloss;
  Entry_Sequence : gostring;
  Entry_RecordingAvailable : bool;
}.

(** The states of the two scanners and the classes of an identifier. *)
Inductive identifierClass : Set := none | xref | detail | text.
Inductive parseGlossState : Set := startGS | captureGS | closedGS | definitionGS.
Inductive parseKeyState : Set := kanjiKS | spaceKS | kanaKS | doneKS.

#[global] Instance identifierClass_eq_dec : EqDecision identifierClass.
Proof. solve_decision. Defined.
#[global] Instance parseGlossState_eq_dec : EqDecision parseGlossState.
Proof. solve_decision. Defined.
#[global] Instance parseKeyState_eq_dec : EqDecision parseKeyState.
Proof. solve_decision. Defined.

(** The [error] values the package builds with [fmt.Errorf], one constructor
    per call site, carrying the arguments of the format. *)
Inductive error : Type :=
| ErrClosed (c : rune)
    (* unexpected '%c' while in closed state (expecting space) *)
| ErrNotDefinition (details : list Detail) (xrefs : list gostring) (def : gostring)
    (* not in definition state after parsing *)
| ErrKeyState (state : parseKeyState) (key : gostring)
    (* not in done or space state (in %v) after parsing key %s *)
| ErrKeyCapture (key capture : gostring) (state : parseKeyState)
    (* chars still in capture buffer after parsing %s! %v (state=%v) *)
| ErrLastNotBlank (last : gostring)
    (* parseLine: last component should be blank, but is %s *)
| ErrEntryDetails (err : error)
    (* parsing entry details: %s *)
| ErrGlobalXref
    (* unexpected xref in global details section *)
| ErrGloss (gloss : gostring) (err : error)
    (* parsing gloss %s got err %s *)
| ErrParseLine (line : Z) (err : error)
    (* parse: line %d: %s *)
| ErrPastEOF (line : Z) (err : error)
    (* parse: past EOF (line %d): %s *)
| ErrScanner (msg : gostring).
    (* whatever [scanner.Err()] reports *)

(** ** The identifier classifier *)

(** [parseIdentifier]: an integer is an ordinal marker ([none]), then the
    [See ] prefix, then a known code, else free text. *)
Definition parseIdentifier (s : gostring) : identifierClass * gostring :=
  if Atoi s is Some _ then (none, [])
  else if HasPrefix s (runes "See ") then (xref, TrimPrefix s (runes "See "))
  else if DetailFor !! s is Some _ then (detail, s)
  else (text, s).

(** [DetailFor[identifier]] as an expression: the zero [Detail] when the key
    is missing. *)
Definition DetailFor_at (identifier : gostring) : Detail :=
  default Adj_i (DetailFor !! identifier).

(** ** The gloss parser *)

(** The local variables of [parseGloss] that the loop updates. *)
Record glossVars : Type := mkGlossVars {
  gv_state : parseGlossState;
  gv_captured : gostring;
  gv_defcapture : gostring;
  gv_details : list Detail;
  gv_xrefs : list gostring;
  gv_err : option error;
}.

Definition glossInit : glossVars := mkGlossVars startGS [] [] [] [] None.

(** One round of [for i, c := range gloss { switch state { ... } }].  The
    [default] branch of the switch is unreachable: the state is one of the
    four constants. *)
Definition glossStep (v : glossVars) (c : rune) : glossVars :=
  let '(mkGlossVars state captured defcapture details xrefs err) := v in
  match state with
  | startGS =>
      if decide (c = rn "(")
      then mkGlossVars captureGS captured defcapture details xrefs err
      else mkGlossVars definitionGS captured (defcapture ++ [c]) details xrefs err
  | definitionGS =>
      mkGlossVars definitionGS captured (defcapture ++ [c]) details xrefs err
  | captureGS =>
      if decide (c = rn ")") then
        let '(class, identifier) := parseIdentifier captured in
        match class with
        | detail =>
            mkGlossVars closedGS [] defcapture
              (details ++ [DetailFor_at identifier]) xrefs err
        | xref =>
            mkGlossVars closedGS [] defcapture details (xrefs ++ [identifier]) err
        | text =>
            mkGlossVars definitionGS []
              (defcapture ++ [rn "("] ++ captured ++ [rn ")"]) details xrefs err
        | none =>
            mkGlossVars closedGS [] defcapture details xrefs err
        end
      else if decide (c = rn ",") then
        let '(class, identifier) := parseIdentifier captured in
        if decide (class = detail)
        then mkGlossVars captureGS [] defcapture
               (details ++ [DetailFor_at identifier]) xrefs err
        else mkGlossVars captureGS (captured ++ [rn ","]) defcapture
               details xrefs err
      else mkGlossVars captureGS (captured ++ [c]) defcapture details xrefs err
  | closedGS =>
      if decide (c = rn " ")
      then mkGlossVars startGS captured defcapture details xrefs err
      else mkGlossVars closedGS captured defcapture details xrefs
             (Some (ErrClosed c))
  end.

Definition glossRun (v : glossVars) (gloss : gostring) : glossVars :=
  foldl glossStep v gloss.

(** [parseGloss]: results [(def, details, xrefs, err)]. *)
Definition parseGloss (gloss : gostring)
  : gostring * list Detail * list gostring * option error :=
  let gloss := TrimSpace gloss in
  let v := glossRun glossInit gloss in
  if decide (gv_state v ≠ definitionGS) then
    ([], gv_details v, gv_xrefs v,
     Some (ErrNotDefinition (gv_details v) (gv_xrefs v) []))
  else (gv_defcapture v, gv_details v, gv_xrefs v, gv_err v).

(** ** The key-field parser *)

Record keyVars : Type := mkKeyVars {
  kv_kanji : list gostring;
  kv_kana : list gostring;
  kv_capture : gostring;
  kv_state : parseKeyState;
}.

Definition keyInit : keyVars := mkKeyVars [] [] [] kanjiKS.

(** One round of [for _, c := range key]. *)
Definition keyStep (v : keyVars) (c : rune) : keyVars :=
  let '(mkKeyVars kanji kana capture state) := v in
  if bool_decide (c = rn ";")
     || bool_decide (state = kanaKS) && bool_decide (c = rn "]")
     || bool_decide (state = kanjiKS) && bool_decide (c = rn " ")
  then
    match state with
    | kanjiKS =>
        mkKeyVars (kanji ++ [capture]) kana []
          (if decide (c = rn " ") then spaceKS else kanjiKS)
    | kanaKS =>
        mkKeyVars kanji (kana ++ [capture]) []
          (if decide (c = rn "]") then doneKS else kanaKS)
    | _ => mkKeyVars kanji kana [] state
    end
  else if bool_decide (c = rn " ") && bool_decide (state = spaceKS) then v
  else if bool_decide (c = rn "[") && bool_decide (state = spaceKS)
  then mkKeyVars kanji kana capture kanaKS
  else mkKeyVars kanji kana (capture ++ [c]) state.

Definition keyRun (v : keyVars) (key : gostring) : keyVars := foldl keyStep v key.

(** The flush after the loop: [if state == kanjiKS { ... state = doneKS }]. *)
Definition keyFlush (v : keyVars) : keyVars :=
  if decide (kv_state v = kanjiKS)
  then mkKeyVars (kv_kanji v ++ [kv_capture v]) (kv_kana v) [] doneKS
  else v.

(** [parseKey]: results [(kanji, kana, err)]; the two lists are returned
    also when [err] is set. *)
Definition parseKey (key : gostring)
  : list gostring * list gostring * option error :=
  let key := TrimSpace key in
  let v := keyFlush (keyRun keyInit key) in
  if negb (bool_decide (kv_state v = doneKS) || bool_decide (kv_state v = spaceKS))
  then (kv_kanji v, kv_kana v, Some (ErrKeyState (kv_state v) key))
  else if decide (len (kv_capture v) ≠ 0)
  then (kv_kanji v, kv_kana v, Some (ErrKeyCapture key (kv_capture v) (kv_state v)))
  else (kv_kanji v, kv_kana v, None).

(** ** The key normaliser *)

(** [fixKey]: everything before the first opening parenthesis. *)
Definition fixKey (key : gostring) : go gostring :=
  if ContainsRune key (rn "(")
  then index (Split key (runes "(")) 0
  else Done key.

(** [for i, k := range keys { keys[i] = fixKey(k) }]. *)
Fixpoint fixKeys (keys : list gostring) : go (list gostring) :=
  match keys with
  | [] => Done []
  | k :: keys' => k' ← fixKey k; ks ← fixKeys keys'; Done (k' :: ks)
  end.

(** ** The line assembler *)

Definition Entry_zero : Entry := mkEntry [] [] [] [] [] false.

Definition set_Information (e : Entry) (i : list Detail) : Entry :=
  mkEntry (Entry_Kanji e) (Entry_Kana e) i (Entry_Gloss e)
    (Entry_Sequence e) (Entry_RecordingAvailable e).

Definition set_Gloss (e : Entry) (g : list Gloss) : Entry :=
  mkEntry (Entry_Kanji e) (Entry_Kana e) (Entry_Information e) g
    (Entry_Sequence e) (Entry_RecordingAvailable e).

Definition set_Keys (e : Entry) (kanji kana : list gostring) : Entry :=
  mkEntry kanji kana (Entry_Information e) (Entry_Gloss e)
    (Entry_Sequence e) (Entry_RecordingAvailable e).

Definition set_Sequence (e : Entry) (s : gostring) (rec : bool) : Entry :=
  mkEntry (Entry_Kanji e) (Entry_Kana e) (Entry_Information e) (Entry_Gloss e)
    s rec.

(** The sequence-number block: [result.Sequence = parts[len(parts)-2]] and
    the recording marker. *)
Definition sequenceOf (result : Entry) (parts : list gostring) : go Entry :=
  seq ← index parts (len parts - 2);
  if HasSuffix seq (runes "X")
  then Done (set_Sequence result (TrimSuffix seq (runes "X")) true)
  else Done (set_Sequence result seq (Entry_RecordingAvailable result)).

(** The first [if len(parts) > 4] block: the entry-wide details before the
    [(1)] marker.  Results: the updated [result], the updated [glosses] and
    the error of an early return. *)
Definition entryDetails (result : Entry) (parts glosses : list gostring)
  : go (Entry * list gostring * option error) :=
  if decide (4 < len parts) then
    p1 ← index parts 1;
    let firstGlossParts := Split p1 (runes "(1)") in
    if decide (len firstGlossParts = 2) then
      f0 ← index firstGlossParts 0;
      let '(_, details, xrefs, err) := parseGloss (f0 ++ runes "fake definition") in
      if err is Some e then Done (result, glosses, Some (ErrEntryDetails e))
      else if decide (len xrefs ≠ 0) then Done (result, glosses, Some ErrGlobalXref)
      else
        f1 ← index firstGlossParts 1;
        Done (set_Information result details, <[0%nat := f1]> glosses, None)
    else Done (result, glosses, None)
  else Done (result, glosses, None).

(** The second [if len(parts) > 4] block: the remaining gloss fields. *)
Definition restGlosses (parts glosses : list gostring) : go (list gostring) :=
  if decide (4 < len parts) then
    rest ← slice parts 2 (len parts - 2);
    Done (glosses ++ rest)
  else Done glosses.

(** [for _, gloss := range glosses { ... }]. *)
Fixpoint glossLoop (result : Entry) (glosses : list gostring)
  : Entry * option error :=
  match glosses with
  | [] => (result, None)
  | gloss :: glosses' =>
      if decide (gloss = runes "(P)") then
        glossLoop (set_Information result (Entry_Information result ++ [Common]))
          glosses'
      else
        let '(def, details, xrefs, err) := parseGloss gloss in
        if err is Some e then (result, Some (ErrGloss gloss e))
        else glossLoop
               (set_Gloss result (Entry_Gloss result ++ [mkGloss def details xrefs]))
               glosses'
  end.

(** [if len(parts) <= 4 { ... result.Gloss[0] ... }]. *)
Definition singleGloss (result : Entry) (parts : list gostring) : go Entry :=
  if decide (len parts ≤ 4) then
    g0 ← index (Entry_Gloss result) 0;
    let result := set_Information result (Gloss_Information g0) in
    g0 ← index (Entry_Gloss result) 0;
    Done (set_Gloss result
            (<[0%nat := mkGloss (Gloss_Definition g0) [] (Gloss_Xref g0)]>
               (Entry_Gloss result)))
  else Done result.

(** [parseLine]: results [(Entry, error)], or a panic. *)
Definition parseLine (line : gostring) : go (Entry * option error) :=
  let result := Entry_zero in
  let parts := Split line (runes "/") in
  last ← index parts (len parts - 1);
  if decide (last ≠ []) then Done (result, Some (ErrLastNotBlank last)) else
  result ← sequenceOf result parts;
  p0 ← index parts 0;
  let '(kanji, kana, err) := parseKey p0 in
  let result := set_Keys result kanji kana in
  if err is Some e then Done (result, Some e) else
  p1 ← index parts 1;
  let glosses := [p1] in
  '(result, glosses, err) ← entryDetails result parts glosses;
  if err is Some e then Done (result, Some e) else
  glosses ← restGlosses parts glosses;
  let result := set_Gloss result [] in
  let '(result, err) := glossLoop result glosses in
  if err is Some e then Done (result, Some e) else
  result ← singleGloss result parts;
  kanji ← fixKeys (Entry_Kanji result);
  kana ← fixKeys (Entry_Kana result);
  Done (set_Keys result kanji kana, None).

(** ** The batch driver *)

Definition blacklist : list Z := [5189; 31179; 104168; 104171; 148763].

(** What a [bufio.Scanner] over the reader delivers: the lines it yields and
    the error [scanner.Err()] reports once [Scan] has returned false. *)
Record Scanner : Type := mkScanner {
  scan_lines : list gostring;
  scan_err : option gostring;
}.

(** The [lines:] loop.  [line] is the counter before the increment and
    [result] the records so far; the loop ends with the counter it reached and
    the error of an early return.  The counter is an [int] that counts lines
    held in memory, so it is kept as an unbounded integer. *)
Fixpoint ParseLoop (line : Z) (result : list Entry) (lines : list gostring)
  : go (Z * list Entry * option error) :=
  match lines with
  | [] => Done (line, result, None)
  | l :: lines' =>
      let line := line + 1 in
      '(entry, err) ← parseLine l;
      match err with
      | Some e =>
          if existsb (λ knownBadLine, bool_decide (knownBadLine = line)) blacklist
          then ParseLoop line result lines'
          else Done (line, result, Some (ErrParseLine line e))
      | None => ParseLoop line (result ++ [entry]) lines'
      end
  end.

(** [Parse]: results [([]Entry, error)], or a panic. *)
Definition Parse (input : Scanner) : go (list Entry * option error) :=
  '(line, result, err) ← ParseLoop 0 [] (scan_lines input);
  if err is Some e then Done (result, Some e)
  else if scan_err input is Some e
  then Done (result, Some (ErrPastEOF line (ErrScanner e)))
  else Done (result, None).

(** ** Shapes of input used in the statements *)

(** A token between parentheses; tags separated by single spaces; closed
    parentheticals, each followed by a space, before a definition text. *)
Definition parenthetical (t : gostring) : gostring := rn "(" :: t ++ [rn ")"].
Definition tagsOnly (tags : list gostring) : gostring :=
  match tags with
  | [] => []
  | t :: ts => parenthetical t ++ mjoin ((λ t', rn " " :: parenthetical t') <$> ts)
  end.
Definition tagsThenText (tags : list gostring) (d : gostring) : gostring :=
  mjoin ((λ t, parenthetical t ++ [rn " "]) <$> tags) ++ d.
Definition isTag (t : gostring) : Prop :=
  (rn ")" ∉ t) ∧ (rn "," ∉ t) ∧ (parseIdentifier t).1 ≠ text.

#[global] Instance isTag_dec t : Decision (isTag t).
Proof. unfold isTag. apply _. Defined.

(** ** Invariant of the key scanner *)

(** What holds of the variables of [parseKey] after any number of rounds: no
    closed token and no pending token holds a semicolon; primary forms hold no
    space; while primary forms are being accumulated the pending token holds
    no space and no pronunciation has been closed; once that state is left, a
    primary form has been closed. *)
Definition keyInv (v : keyVars) : Prop :=
  Forall (λ k, (rn ";" ∉ k) ∧ (rn " " ∉ k)) (kv_kanji v)
  ∧ Forall (λ k, rn ";" ∉ k) (kv_kana v)
  ∧ (rn ";" ∉ kv_capture v)
  ∧ (kv_state v = kanjiKS → (rn " " ∉ kv_capture v) ∧ kv_kana v = [])
  ∧ (kv_state v ≠ kanjiKS → kv_kanji v ≠ []).

(** ** Vocabulary for the statements about [parseLine] *)

(** The field [field] parses, without error, to the definition [g]. *)
Definition parsesTo (field : gostring) (g : Gloss) : Prop :=
  parseGloss field
  = (Gloss_Definition g, Gloss_Information g, Gloss_Xref g, None).

(** The definition fields after the first one: [parts[2 : len(parts)-2]],
    empty when the line has at most four parts. *)
Definition middleFields (parts : list gostring) : list gostring :=
  take (Z.to_nat (len parts - 4)) (drop 2 parts).

(** The fields that stand for definitions, and the number of [(P)] fields. *)
Definition definitionFields (fields : list gostring) : list gostring :=
  filter (λ f, f ≠ runes "(P)") fields.
Definition commonMarks (fields : list gostring) : list Detail :=
  replicate (length (filter (λ f, f = runes "(P)") fields)) Common.

(** ** Vocabulary for the statements about [Parse] *)

(** The record a line contributes to the batch: one when it parses, none
    otherwise; and the records of a sequence of lines, in input order. *)
Definition recordOf (l : gostring) : list Entry :=
  match parseLine l with
  | Done (e, None) => [e]
  | _ => []
  end.

Definition records (lines : list gostring) : list Entry :=
  mjoin (recordOf <$> lines).


(** ** Vocabulary for the further properties *)

(** The pieces of [s] between the occurrences of the rune [c]: what
    [strings.Split] computes for a separator of one rune (lemma
    [Split_fields]). *)
Fixpoint fields (c : rune) (s : gostring) : list gostring :=
  match s with
  | [] => [[]]
  | x :: s' =>
      if decide (x = c) then [] :: fields c s'
      else match fields c s' with
           | f :: fs => (x :: f) :: fs
           | [] => [[x]]
           end
  end.

(** [strings.Join]. *)
Fixpoint Join (elems : list gostring) (sep : gostring) : gostring :=
  match elems with
  | [] => []
  | e :: es => match es with [] => e | _ => e ++ sep ++ Join es sep end
  end.

(** The annotations and the cross-references that a list of parenthesised
    tokens stands for, in order. *)
Definition tagDetails (tags : list gostring) : list Detail :=
  tags ≫= λ t, match parseIdentifier t with
               | (detail, identifier) => [DetailFor_at identifier]
               | _ => []
               end.

Definition tagXrefs (tags : list gostring) : list gostring :=
  tags ≫= λ t, match parseIdentifier t with
               | (xref, identifier) => [identifier]
               | _ => []
               end.

(** White space only. *)
Definition allSpace (s : gostring) : Prop := Forall (λ c, IsSpace c = true) s.

(** A definition text that starts neither with white space nor with an
    opening parenthesis and does not end with white space. *)
Definition plainText (d : gostring) : Prop :=
  (∃ c, head d = Some c ∧ c ≠ rn "(" ∧ IsSpace c = false)
  ∧ (∃ c, last d = Some c ∧ IsSpace c = false).

(** A well-formed primary form: not empty, without semicolon or white space;
    a well-formed pronunciation: without semicolon or closing bracket. *)
Definition kanjiToken (k : gostring) : Prop :=
  k ≠ [] ∧ Forall (λ c, c ≠ rn ";" ∧ IsSpace c = false) k.

Definition kanaToken (k : gostring) : Prop :=
  (rn ";" ∉ k) ∧ (rn "]" ∉ k).

(** Two records with the same keys, sequence identifier and recording flag. *)
Definition sameHead (r r' : Entry) : Prop :=
  Entry_Kanji r' = Entry_Kanji r ∧ Entry_Kana r' = Entry_Kana r
  ∧ Entry_Sequence r' = Entry_Sequence r
  ∧ Entry_RecordingAvailable r' = Entry_RecordingAvailable r.

(** * Properties *)

(** ** The library model *)

Lemma HasPrefix_length s prefix :
  HasPrefix s prefix = true → (length prefix ≤ length s)%nat.
Proof.
  revert s. induction prefix as [|p prefix IH]; intros [|c s]; simpl; try done; try lia.
  intros H. apply andb_prop in H as [_ H]. apply IH in H. lia.
Qed.

Lemma Index_unfold s substr :
  Index s substr
  = if HasPrefix s substr then Some 0%nat
    else match s with [] => None | _ :: s' => S <$> Index s' substr end.
Proof. by destruct s. Qed.

Lemma Index_bound s substr i :
  Index s substr = Some i → (i + length substr ≤ length s)%nat.
Proof.
  revert i. induction s as [|c s IH]; intros i; rewrite Index_unfold.
  - destruct (HasPrefix [] substr) eqn:Hp; [|done].
    intros; simplify_eq. by apply HasPrefix_length in Hp.
  - destruct (HasPrefix (c :: s) substr) eqn:Hp.
    + intros; simplify_eq. by apply HasPrefix_length in Hp.
    + destruct (Index s substr) as [j|]; [|done].
      intros; simplify_eq/=. specialize (IH j eq_refl). lia.
Qed.

(** The fuel of [Count_loop] is never exhausted before the loop returns:
    any fuel of at least the length of the string gives the same count. *)
Lemma Count_loop_fuel substr fuel1 fuel2 s :
  substr ≠ [] → (length s ≤ fuel1)%nat → (length s ≤ fuel2)%nat →
  Count_loop fuel1 s substr = Count_loop fuel2 s substr.
Proof.
  intros Hne. revert fuel2 s.
  assert (Hnil : ∀ fuel, Count_loop fuel [] substr = 0%nat).
  { intros [|fuel]; [done|]. simpl. by destruct substr. }
  induction fuel1 as [|fuel1 IH]; intros fuel2 s H1 H2.
  - destruct s; [|simpl in H1; lia]. by rewrite !Hnil.
  - destruct fuel2 as [|fuel2].
    { destruct s; [|simpl in H2; lia]. by rewrite !Hnil. }
    cbn [Count_loop]. destruct (Index s substr) as [i|] eqn:Hi; [|done].
    apply Index_bound in Hi.
    assert (0 < length substr)%nat by (destruct substr; [done | simpl; lia]).
    f_equal. apply IH; rewrite length_drop; lia.
Qed.

(** ** The annotation taxonomy *)

Section init_loop.
Implicit Types (order : list (Detail * gostring)).

Lemma init_loop_snoc order p :
  init_loop (order ++ [p]) = <[p.2 := p.1]> (init_loop order).
Proof. unfold init_loop. by rewrite foldl_app. Qed.

(** When no code occurs twice, the table the loop builds does not depend on
    the order of the visits: every visited pair can be read back. *)
Lemma init_loop_lookup order d s :
  NoDup order.*2 → (d, s) ∈ order → init_loop order !! s = Some d.
Proof.
  induction order as [|p order IH] using rev_ind; intros Hnd Hin.
  - by apply elem_of_nil in Hin.
  - rewrite init_loop_snoc. rewrite fmap_app in Hnd.
    apply NoDup_app in Hnd as (Hnd & Hfresh & _).
    apply elem_of_app in Hin as [Hin|Hin].
    + rewrite lookup_insert_ne; [by apply IH|].
      intros <-. apply (Hfresh p.2); [|set_solver].
      apply list_elem_of_fmap. by exists (d, p.2).
    + apply list_elem_of_singleton in Hin as <-. apply lookup_insert_eq.
Qed.
End init_loop.

Lemma DetailString_codes_NoDup : NoDup (map_to_list DetailString).*2.
Proof. apply (bool_decide_unpack _). by vm_compute. Qed.

Lemma DetailString_total (A : Detail) : is_Some (DetailString !! A).
Proof. destruct A; vm_compute; eauto. Qed.

Lemma DetailFor_inverts_DetailString_table A s :
  DetailString !! A = Some s → DetailFor !! s = Some A.
Proof.
  intros HA. apply init_loop_lookup; [apply DetailString_codes_NoDup|].
  by apply elem_of_map_to_list.
Qed.

(** C10.  The code mapping is a bijection on the closed set: every [Detail]
    constant is a key of [DetailString]; whatever order [init] visits the
    table in, looking the code of [A] up in the table it builds gives [A]
    back, so in particular [DetailFor] does; and two keys of [DetailString]
    with the same code are equal. *)
Theorem DetailFor_inverts_DetailString :
  (∀ A : Detail, is_Some (DetailString !! A))
  ∧ (∀ order A s, order ≡ₚ map_to_list DetailString →
       DetailString !! A = Some s → init_loop order !! s = Some A)
  ∧ (∀ A s, DetailString !! A = Some s → DetailFor !! s = Some A)
  ∧ (∀ A B s, DetailString !! A = Some s → DetailString !! B = Some s → A = B).
Proof.
  assert (Hany : ∀ order A s, order ≡ₚ map_to_list DetailString →
            DetailString !! A = Some s → init_loop order !! s = Some A).
  { intros order A s Hp HA. apply init_loop_lookup.
    - rewrite Hp. apply DetailString_codes_NoDup.
    - rewrite Hp. by apply elem_of_map_to_list. }
  split_and!; [apply DetailString_total | done | by eauto |].
  intros A B s HA HB.
  pose proof (Hany _ A s (reflexivity _) HA) as H1.
  pose proof (Hany _ B s (reflexivity _) HB) as H2. congruence.
Qed.

Lemma DetailFor_inverts_DetailString_witness :
  DetailFor !! runes "vs-c" = Some Vs_c.
Proof.
  apply (proj1 (proj2 (proj2 DetailFor_inverts_DetailString)) Vs_c (runes "vs-c")).
  reflexivity.
Defined.

(** ** The identifier classifier and the gloss parser *)

(** A token classified as [detail] is a key of [DetailFor], and the
    identifier handed back is the token itself. *)
Lemma parseIdentifier_detail s class identifier :
  parseIdentifier s = (class, identifier) → class = detail →
  identifier = s ∧ ∃ A, DetailFor !! s = Some A ∧ DetailFor_at identifier = A.
Proof.
  unfold parseIdentifier, DetailFor_at. intros H ->.
  destruct (Atoi s); [done|].
  destruct (HasPrefix s (runes "See ")); [done|].
  destruct (DetailFor !! s) as [A|] eqn:E; [|done].
  inversion H; subst. rewrite E. eauto.
Qed.

(** C7.  Inside a parenthetical a comma classifies the token captured so far
    and leaves the parenthesis open (the state stays [captureGS]).  When the
    token is a known annotation code, that annotation is appended to the
    annotation list at once and the token buffer is reset; when it is an
    ordinal, a cross-reference or free text, the comma is appended to the
    token buffer and nothing else changes.  The gloss [(n,adj-no) foo] gives
    the annotations [N; Adj_no], in that order, and the definition [foo]. *)
Theorem parseGloss_comma_in_parenthetical :
  (∀ v class identifier,
      gv_state v = captureGS →
      parseIdentifier (gv_captured v) = (class, identifier) →
      (class = detail →
         ∃ A, DetailFor !! gv_captured v = Some A
              ∧ glossStep v (rn ",")
                = mkGlossVars captureGS [] (gv_defcapture v)
                    (gv_details v ++ [A]) (gv_xrefs v) (gv_err v))
      ∧ (class ≠ detail →
         glossStep v (rn ",")
         = mkGlossVars captureGS (gv_captured v ++ [rn ","]) (gv_defcapture v)
             (gv_details v) (gv_xrefs v) (gv_err v)))
  ∧ parseGloss (runes "(n,adj-no) foo") = (runes "foo", [N; Adj_no], [], None).
Proof.
  split; [|by vm_compute].
  intros [state captured defcapture details xrefs err] class identifier.
  simpl. intros -> Hc. unfold glossStep. rewrite Hc. simpl.
  split.
  - intros ->. destruct (parseIdentifier_detail _ _ _ Hc eq_refl) as (_ & A & HA & ->).
    exists A. by rewrite decide_True.
  - intros Hne. by rewrite decide_False.
Qed.

Lemma parseGloss_comma_in_parenthetical_witness :
  glossStep (mkGlossVars captureGS (runes "n") [] [] [] None) (rn ",")
  = mkGlossVars captureGS [] [] [N] [] None
  ∧ glossStep (mkGlossVars captureGS (runes "See a") [] [] [] None) (rn ",")
    = mkGlossVars captureGS (runes "See a,") [] [] [] None.
Proof.
  split.
  - destruct (proj1 parseGloss_comma_in_parenthetical
                (mkGlossVars captureGS (runes "n") [] [] [] None)
                detail (runes "n") eq_refl eq_refl) as [H _].
    destruct (H eq_refl) as (A & HA & ->).
    vm_compute in HA. by inversion HA.
  - apply (proj1 parseGloss_comma_in_parenthetical
             (mkGlossVars captureGS (runes "See a") [] [] [] None)
             xref (runes "a") eq_refl eq_refl).
    discriminate.
Defined.

(** *** Trimming *)

Lemma TrimLeftSpace_nonspace c s : IsSpace c = false → TrimLeftSpace (c :: s) = c :: s.
Proof. intros H. simpl. by rewrite H. Qed.

(** [TrimSpace] leaves alone a string that neither starts nor ends with
    white space. *)
Lemma TrimSpace_id c s s' c' :
  c :: s = s' ++ [c'] → IsSpace c = false → IsSpace c' = false →
  TrimSpace (c :: s) = c :: s.
Proof.
  intros E Hc Hc'. unfold TrimSpace. rewrite TrimLeftSpace_nonspace by done.
  rewrite E, reverse_snoc, TrimLeftSpace_nonspace by done.
  by rewrite reverse_cons, reverse_involutive.
Qed.

(** *** The scanning loop *)

Lemma glossRun_snoc v s c : glossRun v (s ++ [c]) = glossStep (glossRun v s) c.
Proof. unfold glossRun. by rewrite foldl_app. Qed.

Lemma glossRun_app v s1 s2 : glossRun v (s1 ++ s2) = glossRun (glossRun v s1) s2.
Proof. unfold glossRun. by rewrite foldl_app. Qed.

Lemma glossRun_cons v c s : glossRun v (c :: s) = glossRun (glossStep v c) s.
Proof. done. Qed.

(** A round sets the error exactly in the closed state on a rune that is not
    a space, and never clears it. *)
Lemma glossStep_err v c :
  gv_err (glossStep v c)
  = if decide (gv_state v = closedGS ∧ c ≠ rn " ") then Some (ErrClosed c)
    else gv_err v.
Proof.
  destruct (decide _) as [[Hs Hc]|Hn];
    destruct v as [state captured defcapture details xrefs err];
    simpl in *; subst.
  - by rewrite decide_False.
  - destruct state; simpl.
    + by destruct (decide _).
    + destruct (decide _); [|destruct (decide _)];
        destruct (parseIdentifier captured) as [[] ?]; by simplify_eq/=.
    + destruct (decide (c = rn " ")) as [->|Hc]; [done|]. by destruct Hn.
    + done.
Qed.

Lemma glossRun_err_iff v s :
  gv_err (glossRun v s) ≠ None
  ↔ gv_err v ≠ None
    ∨ ∃ pre c post, s = pre ++ c :: post
        ∧ gv_state (glossRun v pre) = closedGS ∧ c ≠ rn " ".
Proof.
  induction s as [|c s IH] using rev_ind.
  - simpl. split; [by left|]. intros [H|(pre & c & post & E & _)]; [done|].
    by destruct pre.
  - rewrite glossRun_snoc, glossStep_err. split.
    + destruct (decide _) as [Hd|Hd].
      * intros _. right. by exists s, c, [].
      * intros H. apply IH in H as [H|(pre & c' & post & -> & H1 & H2)]; [by left|].
        right. exists pre, c', (post ++ [c]). by rewrite <-app_assoc.
    + intros H. destruct (decide _) as [Hd|Hd]; [done|]. apply IH.
      destruct H as [H|(pre & c' & post & E & H1 & H2)]; [by left|].
      destruct post as [|p post _] using rev_ind.
      * apply app_inj_tail in E as [-> ->]. by destruct Hd.
      * right. exists pre, c', post.
        change (c' :: post ++ [p]) with ((c' :: post) ++ [p]) in E.
        rewrite app_assoc in E. by apply app_inj_tail in E as [-> _].
Qed.

(** In the definition state every rune is taken literally. *)
Lemma glossRun_definition v s :
  gv_state v = definitionGS →
  gv_state (glossRun v s) = definitionGS ∧ gv_err (glossRun v s) = gv_err v.
Proof.
  revert v. induction s as [|c s IH]; intros v Hv; [done|].
  rewrite glossRun_cons.
  destruct (IH (glossStep v c)) as [-> ->].
  - destruct v; by simplify_eq/=.
  - split; [done|]. rewrite glossStep_err, decide_False; [done|].
    intros [? _]. congruence.
Qed.

(** Inside a parenthetical the loop stays there until the closing
    parenthesis; without commas the token is captured unchanged. *)
Lemma glossRun_capture v t :
  gv_state v = captureGS → rn ")" ∉ t →
  gv_state (glossRun v t) = captureGS ∧ gv_err (glossRun v t) = gv_err v
  ∧ (rn "," ∉ t → gv_captured (glossRun v t) = gv_captured v ++ t).
Proof.
  revert v. induction t as [|c t IH]; intros v Hv Hc.
  - simpl. by rewrite app_nil_r.
  - apply not_elem_of_cons in Hc as [Hc Ht]. rewrite glossRun_cons.
    assert (gv_state (glossStep v c) = captureGS
            ∧ (c ≠ rn "," → gv_captured (glossStep v c) = gv_captured v ++ [c]))
      as [Hst Hcap].
    { destruct v as [state captured defcapture details xrefs err].
      simpl in Hv; subst. simpl. rewrite decide_False by done.
      destruct (decide (c = rn ",")); [|done].
      destruct (parseIdentifier captured) as [class identifier].
      by destruct (decide (class = detail)). }
    destruct (IH (glossStep v c) Hst Ht) as (-> & -> & Hrest).
    split_and!; [done| |].
    + rewrite glossStep_err, decide_False; [done|]. intros [? _]. congruence.
    + intros Hn. apply not_elem_of_cons in Hn as [Hn1 Hn2].
      rewrite Hrest, Hcap by done. by rewrite <-app_assoc.
Qed.

Lemma mjoin_cons {A} (l : list A) ls : mjoin (l :: ls) = l ++ mjoin ls.
Proof. done. Qed.

(** A parenthesised tag takes the loop from the start state to the closed
    state. *)
Lemma glossRun_tag v t :
  gv_state v = startGS → gv_captured v = [] → isTag t →
  gv_state (glossRun v (parenthetical t)) = closedGS
  ∧ gv_captured (glossRun v (parenthetical t)) = [].
Proof.
  intros Hs Hc (Hp & Hcomma & Hclass). unfold parenthetical.
  rewrite glossRun_cons, glossRun_snoc.
  assert (gv_state (glossStep v (rn "(")) = captureGS
          ∧ gv_captured (glossStep v (rn "(")) = []) as [Hs' Hc'].
  { destruct v; by simplify_eq/=. }
  destruct (glossRun_capture _ t Hs' Hp) as (Hs2 & _ & Hcap).
  specialize (Hcap Hcomma). rewrite Hc' in Hcap. simpl in Hcap.
  destruct (glossRun (glossStep v (rn "(")) t)
    as [state captured defcapture details xrefs err].
  simpl in *; subst.
  destruct (parseIdentifier t) as [[] ?]; by simplify_eq/=.
Qed.

Lemma glossRun_tags v ts :
  gv_state v = closedGS → gv_captured v = [] → Forall isTag ts →
  gv_state (glossRun v (mjoin ((λ t', rn " " :: parenthetical t') <$> ts)))
  = closedGS.
Proof.
  intros Hs Hc Hts. revert v Hs Hc.
  induction Hts as [|t ts Ht _ IH]; intros v Hs Hc; [done|].
  rewrite fmap_cons, mjoin_cons, <-app_comm_cons.
  rewrite glossRun_cons, glossRun_app.
  assert (gv_state (glossStep v (rn " ")) = startGS
          ∧ gv_captured (glossStep v (rn " ")) = []) as [Hs' Hc'].
  { destruct v; by simplify_eq/=. }
  destruct (glossRun_tag _ t Hs' Hc' Ht) as [Hs2 Hc2]. by apply IH.
Qed.

(** A parenthetical that closes, followed by a space, leaves the loop either
    looking for the next tag or already in the definition text. *)
Lemma glossRun_parenthetical v t :
  gv_state v = startGS ∨ gv_state v = definitionGS → rn ")" ∉ t →
  let v' := glossRun v (parenthetical t ++ [rn " "]) in
  (gv_state v' = startGS ∨ gv_state v' = definitionGS) ∧ gv_err v' = gv_err v.
Proof.
  intros [Hs|Hs] Hp v'; subst v'.
  2: { destruct (glossRun_definition v (parenthetical t ++ [rn " "]) Hs); auto. }
  unfold parenthetical.
  rewrite glossRun_snoc, glossRun_cons, glossRun_snoc.
  assert (gv_state (glossStep v (rn "(")) = captureGS
          ∧ gv_err (glossStep v (rn "(")) = gv_err v) as [Hs' He'].
  { destruct v; by simplify_eq/=. }
  destruct (glossRun_capture _ t Hs' Hp) as (Hs2 & He2 & _).
  rewrite <-He', <-He2.
  destruct (glossRun (glossStep v (rn "(")) t)
    as [state captured defcapture details xrefs err].
  simpl in *; subst.
  destruct (parseIdentifier captured) as [[] ?]; simpl; auto.
Qed.

Lemma glossRun_tagsThenText v tags d c :
  gv_state v = startGS ∨ gv_state v = definitionGS →
  Forall (λ t, rn ")" ∉ t) tags → head d = Some c → c ≠ rn "(" →
  let v' := glossRun v (tagsThenText tags d) in
  gv_state v' = definitionGS ∧ gv_err v' = gv_err v.
Proof.
  intros Hs Htags Hd Hc. revert v Hs. unfold tagsThenText.
  induction Htags as [|t tags Ht _ IH]; intros v Hs.
  - destruct d as [|c' d]; simplify_eq/=.
    change (glossRun v (c :: d)) with (glossRun (glossStep v c) d).
    assert (gv_state (glossStep v c) = definitionGS
            ∧ gv_err (glossStep v c) = gv_err v) as [Hs' <-].
    { destruct v as [state ? ? ? ? ?]. simpl in Hs.
      destruct Hs; subst; simpl; [|done]. by rewrite decide_False. }
    by apply glossRun_definition.
  - rewrite fmap_cons, mjoin_cons, <-app_assoc, glossRun_app.
    destruct (glossRun_parenthetical v t Hs Ht) as [Hs' <-].
    apply (IH _ Hs').
Qed.

(** C8.  [parseGloss] returns an error exactly when, on the trimmed input,
    (a) the loop meets a rune other than a space while it is in the closed
    state, or (b) the loop does not end in the definition state.  Hence an
    input made only of tags (parenthesised tokens without comma that are
    ordinals, cross-references or annotation codes, separated by one space)
    fails, and an input in which every parenthetical closes and is followed
    by a space, ending with definition text (non-empty, not starting with an
    opening parenthesis, without white space at either end), succeeds. *)
Theorem parseGloss_error_iff :
  (∀ gloss,
     (parseGloss gloss).2 ≠ None
     ↔ (∃ pre c post, TrimSpace gloss = pre ++ c :: post
          ∧ gv_state (glossRun glossInit pre) = closedGS ∧ c ≠ rn " ")
       ∨ gv_state (glossRun glossInit (TrimSpace gloss)) ≠ definitionGS)
  ∧ (∀ tags, Forall isTag tags → (parseGloss (tagsOnly tags)).2 ≠ None)
  ∧ (∀ tags d c c',
       Forall (λ t, rn ")" ∉ t) tags →
       head d = Some c → c ≠ rn "(" → IsSpace c = false →
       last d = Some c' → IsSpace c' = false →
       (parseGloss (tagsThenText tags d)).2 = None).
Proof.
  assert (Hiff : ∀ gloss,
     (parseGloss gloss).2 ≠ None
     ↔ (∃ pre c post, TrimSpace gloss = pre ++ c :: post
          ∧ gv_state (glossRun glossInit pre) = closedGS ∧ c ≠ rn " ")
       ∨ gv_state (glossRun glossInit (TrimSpace gloss)) ≠ definitionGS).
  { intros gloss. unfold parseGloss.
    destruct (decide (gv_state _ ≠ definitionGS)) as [Hn|Hd]; simpl.
    - split; [by right | done].
    - rewrite glossRun_err_iff. simpl. split.
      + intros [?|?]; [done | by left].
      + intros [?|?]; [by right | done]. }
  split_and!; [done| |].
  - intros tags Htags. apply Hiff. right.
    destruct Htags as [|t ts Ht Hts]; [by vm_compute|].
    assert (TrimSpace (tagsOnly (t :: ts)) = tagsOnly (t :: ts)) as ->.
    { assert (∃ s', tagsOnly (t :: ts) = s' ++ [rn ")"]) as [s' Hs'].
      { simpl. destruct ts as [|t' ts _] using rev_ind.
        - exists (rn "(" :: t). by rewrite app_nil_r.
        - rewrite fmap_app, join_app. simpl. rewrite app_nil_r.
          eexists. unfold parenthetical.
          rewrite (app_comm_cons t' _ (rn "(")), (app_comm_cons _ _ (rn " ")).
          rewrite !app_assoc. by rewrite app_comm_cons. }
      by apply (TrimSpace_id _ _ s' (rn ")")). }
    simpl. rewrite glossRun_app.
    destruct (glossRun_tag glossInit t eq_refl eq_refl Ht) as [Hs Hc].
    by rewrite glossRun_tags.
  - intros tags d c c' Htags Hd Hc Hsp Hl Hsp'.
    assert (TrimSpace (tagsThenText tags d) = tagsThenText tags d) as Htrim.
    { apply last_Some in Hl as [d0 Hd0].
      destruct tags as [|t tags]; unfold tagsThenText.
      - destruct d as [|x d1]; simplify_eq/=.
        by apply (TrimSpace_id _ _ d0 c').
      - rewrite fmap_cons, mjoin_cons. unfold parenthetical at 1.
        rewrite <-!app_comm_cons.
        eapply (TrimSpace_id _ _ _ c'); [|done..].
        rewrite Hd0, !app_comm_cons, !app_assoc. reflexivity. }
    unfold parseGloss. rewrite Htrim.
    destruct (glossRun_tagsThenText glossInit tags d c) as [Hs He]; auto.
    rewrite decide_False by (by intros []). done.
Qed.

Lemma parseGloss_error_iff_witness :
  (parseGloss (runes "(n) (adj-i)")).2 ≠ None
  ∧ (parseGloss (runes "(n)x foo")).2 ≠ None
  ∧ (parseGloss (runes "(n,vs) (esp.) foo")).2 = None.
Proof.
  destruct parseGloss_error_iff as (Hiff & Honly & Hok). split_and!.
  - apply (Honly [runes "n"; runes "adj-i"]). compute_done.
  - apply Hiff. left. exists (runes "(n)"), (rn "x"), (runes " foo").
    split_and!; compute_done.
  - apply (Hok [runes "n,vs"; runes "esp."] (runes "foo") (rn "f") (rn "o"));
      compute_done.
Defined.

(** ** The key-field parser *)

Lemma keyRun_cons v c s : keyRun v (c :: s) = keyRun (keyStep v c) s.
Proof. done. Qed.

(** The transition function, state by state. *)
Lemma keyStep_kanjiKS kanji kana capture c :
  keyStep (mkKeyVars kanji kana capture kanjiKS) c
  = if decide (c = rn ";") then mkKeyVars (kanji ++ [capture]) kana [] kanjiKS
    else if decide (c = rn " ") then mkKeyVars (kanji ++ [capture]) kana [] spaceKS
    else mkKeyVars kanji kana (capture ++ [c]) kanjiKS.
Proof.
  unfold keyStep.
  destruct (decide (c = rn ";")) as [->|?]; [reflexivity|].
  destruct (decide (c = rn " ")) as [->|?]; [reflexivity|].
  repeat (case_bool_decide; simplify_eq/=); done.
Qed.

Lemma keyStep_spaceKS kanji kana capture c :
  keyStep (mkKeyVars kanji kana capture spaceKS) c
  = if decide (c = rn ";") then mkKeyVars kanji kana [] spaceKS
    else if decide (c = rn " ") then mkKeyVars kanji kana capture spaceKS
    else if decide (c = rn "[") then mkKeyVars kanji kana capture kanaKS
    else mkKeyVars kanji kana (capture ++ [c]) spaceKS.
Proof.
  unfold keyStep.
  destruct (decide (c = rn ";")) as [->|?]; [reflexivity|].
  destruct (decide (c = rn " ")) as [->|?]; [reflexivity|].
  destruct (decide (c = rn "[")) as [->|?]; [reflexivity|].
  repeat (case_bool_decide; simplify_eq/=); done.
Qed.

Lemma keyStep_kanaKS kanji kana capture c :
  keyStep (mkKeyVars kanji kana capture kanaKS) c
  = if decide (c = rn ";") then mkKeyVars kanji (kana ++ [capture]) [] kanaKS
    else if decide (c = rn "]") then mkKeyVars kanji (kana ++ [capture]) [] doneKS
    else mkKeyVars kanji kana (capture ++ [c]) kanaKS.
Proof.
  unfold keyStep.
  destruct (decide (c = rn ";")) as [->|?]; [reflexivity|].
  destruct (decide (c = rn "]")) as [->|?]; [reflexivity|].
  repeat (case_bool_decide; simplify_eq/=); done.
Qed.

Lemma keyStep_doneKS kanji kana capture c :
  keyStep (mkKeyVars kanji kana capture doneKS) c
  = if decide (c = rn ";") then mkKeyVars kanji kana [] doneKS
    else mkKeyVars kanji kana (capture ++ [c]) doneKS.
Proof.
  unfold keyStep.
  destruct (decide (c = rn ";")) as [->|?]; [reflexivity|].
  repeat (case_bool_decide; simplify_eq/=); done.
Qed.

Lemma keyInv_init : keyInv keyInit.
Proof. unfold keyInv, keyInit; simpl. split_and!; try done; set_solver. Qed.

Lemma keyInv_step v c : keyInv v → keyInv (keyStep v c).
Proof.
  destruct v as [kanji kana capture state].
  intros (Hkanji & Hkana & Hcap & Hst & Hne).
  simpl in Hkanji, Hkana, Hcap, Hst, Hne.
  destruct state.
  - rewrite keyStep_kanjiKS. destruct (Hst eq_refl) as [Hsp ->].
    repeat case_decide; subst; unfold keyInv; simpl; split_and!;
      rewrite ?Forall_app, ?Forall_singleton; try done;
      try (intros _; by destruct kanji); set_solver.
  - rewrite keyStep_spaceKS.
    repeat case_decide; subst; unfold keyInv; simpl; split_and!;
      try done; try (intros _; by apply Hne); set_solver.
  - rewrite keyStep_kanaKS.
    repeat case_decide; subst; unfold keyInv; simpl; split_and!;
      rewrite ?Forall_app, ?Forall_singleton; try done;
      try (intros _; by apply Hne); set_solver.
  - rewrite keyStep_doneKS.
    repeat case_decide; subst; unfold keyInv; simpl; split_and!;
      try done; try (intros _; by apply Hne); set_solver.
Qed.

Lemma keyInv_run v s : keyInv v → keyInv (keyRun v s).
Proof.
  revert v. induction s as [|c s IH]; intros v Hv; [done|].
  rewrite keyRun_cons. by apply IH, keyInv_step.
Qed.

Lemma keyInv_flush v : keyInv v → keyInv (keyFlush v) ∧ kv_state (keyFlush v) ≠ kanjiKS.
Proof.
  destruct v as [kanji kana capture state].
  intros (Hkanji & Hkana & Hcap & Hst & Hne). unfold keyFlush. simpl in *.
  case_decide as Hs; [|by split].
  destruct (Hst Hs) as [Hsp ->]. split; [|done].
  unfold keyInv; simpl. rewrite Forall_app, Forall_singleton.
  split_and!; try done; [set_solver|]. intros _. by destruct kanji.
Qed.

(** The three results of [parseKey] are read off the flushed variables. *)
Lemma parseKey_lists key :
  let v := keyFlush (keyRun keyInit (TrimSpace key)) in
  (parseKey key).1 = (kv_kanji v, kv_kana v).
Proof. unfold parseKey. simpl. by repeat destruct (_ : bool) || case_decide. Qed.

(** C5 (amended).  Whenever [parseKey] succeeds, the primary-form list is not
    empty (the pronunciation list may be), no string of either list holds a
    semicolon, and no primary form holds a space. *)
Theorem parseKey_output key kanji kana :
  parseKey key = (kanji, kana, None) →
  kanji ≠ []
  ∧ Forall (λ k, (rn ";" ∉ k) ∧ (rn " " ∉ k)) kanji
  ∧ Forall (λ k, rn ";" ∉ k) kana.
Proof.
  intros H. pose proof (parseKey_lists key) as Hl. rewrite H in Hl.
  simpl in Hl. inversion Hl; subst; clear Hl.
  destruct (keyInv_flush (keyRun keyInit (TrimSpace key)))
    as [(Hkanji & Hkana & _ & _ & Hne) Hst].
  { apply keyInv_run, keyInv_init. }
  auto.
Qed.

Lemma parseKey_output_witness :
  [runes "A"; runes "B"] ≠ []
  ∧ Forall (λ k, (rn ";" ∉ k) ∧ (rn " " ∉ k)) [runes "A"; runes "B"]
  ∧ Forall (λ k, rn ";" ∉ k) [runes "C"; runes "D"].
Proof.
  apply (parseKey_output (runes "A;B  [C;D]")). reflexivity.
Defined.

(** C5 as stated fails: the field [A]] parses, and its only primary form
    holds a closing bracket; the field [A [ x ]] parses, and its pronunciation
    starts and ends with a space. *)
Lemma parseKey_output_counterexample :
  ¬ (∀ kanji kana k,
       parseKey (runes "A]") = (kanji, kana, None) → k ∈ kanji ++ kana →
       (rn "[" ∉ k) ∧ (rn "]" ∉ k))
  ∧ ¬ (∀ kanji kana k,
       parseKey (runes "A [ x ]") = (kanji, kana, None) → k ∈ kanji ++ kana →
       head k ≠ Some (rn " ") ∧ last k ≠ Some (rn " ")).
Proof.
  split.
  - intros H. destruct (H [runes "A]"] [] (runes "A]") eq_refl) as [_ Hn].
    + set_solver.
    + apply Hn. compute_done.
  - intros H.
    destruct (H [runes "A"] [runes " x "] (runes " x ") eq_refl) as [Hn _].
    + set_solver.
    + by apply Hn.
Qed.

(** The outcome of [parseKey] from the state in which the loop ends. *)
Lemma parseKey_by_state key :
  let key' := TrimSpace key in
  let v := keyRun keyInit key' in
  parseKey key
  = match kv_state v with
    | kanjiKS => (kv_kanji v ++ [kv_capture v], kv_kana v, None)
    | kanaKS => (kv_kanji v, kv_kana v, Some (ErrKeyState kanaKS key'))
    | st =>
        if decide (kv_capture v = [])
        then (kv_kanji v, kv_kana v, None)
        else (kv_kanji v, kv_kana v, Some (ErrKeyCapture key' (kv_capture v) st))
    end.
Proof.
  unfold parseKey, keyFlush. simpl.
  destruct (keyRun keyInit (TrimSpace key)) as [kanji kana capture []]; simpl;
    try done; by destruct capture.
Qed.

(** C6 (amended).  If the input ends while a primary form is being
    accumulated, the pending token is flushed as the last primary form, after
    those already closed by semicolons, the pronunciation list is empty and
    [parseKey] succeeds.  If it ends while a pronunciation is being
    accumulated, [parseKey] fails, citing that state.  If it ends in the
    post-primary-form state or in the finished state, [parseKey] fails,
    citing the state, when the pending buffer is not empty, and succeeds when
    it is empty. *)
Theorem parseKey_termination key :
  let key' := TrimSpace key in
  let v := keyRun keyInit key' in
  (kv_state v = kanjiKS →
     parseKey key = (kv_kanji v ++ [kv_capture v], [], None))
  ∧ (kv_state v = kanaKS →
     parseKey key = (kv_kanji v, kv_kana v, Some (ErrKeyState kanaKS key')))
  ∧ (kv_state v = spaceKS ∨ kv_state v = doneKS →
     kv_capture v ≠ [] →
     parseKey key
     = (kv_kanji v, kv_kana v,
        Some (ErrKeyCapture key' (kv_capture v) (kv_state v))))
  ∧ (kv_state v = spaceKS ∨ kv_state v = doneKS →
     kv_capture v = [] →
     parseKey key = (kv_kanji v, kv_kana v, None)).
Proof.
  intros key' v. pose proof (parseKey_by_state key) as H.
  cbv zeta in H. fold key' in H. fold v in H.
  assert (keyInv v) as (_ & _ & _ & Hst & _) by apply keyInv_run, keyInv_init.
  split_and!.
  - intros Hs. rewrite H, Hs. by destruct (Hst Hs) as [_ ->].
  - intros Hs. by rewrite H, Hs.
  - intros [Hs|Hs] Hc; rewrite H, Hs; by rewrite decide_False.
  - intros [Hs|Hs] Hc; rewrite H, Hs; by rewrite decide_True.
Qed.

Lemma parseKey_termination_witness :
  parseKey (runes "A;B") = ([runes "A"; runes "B"], [], None)
  ∧ parseKey (runes "A;B [C")
    = ([runes "A"; runes "B"], [], Some (ErrKeyState kanaKS (runes "A;B [C")))
  ∧ parseKey (runes "A [x]y")
    = ([runes "A"], [runes "x"],
       Some (ErrKeyCapture (runes "A [x]y") (runes "y") doneKS))
  ∧ parseKey (runes "A [x]") = ([runes "A"], [runes "x"], None).
Proof.
  split_and!.
  - apply (proj1 (parseKey_termination (runes "A;B"))). reflexivity.
  - apply (proj1 (proj2 (parseKey_termination (runes "A;B [C")))). reflexivity.
  - apply (proj1 (proj2 (proj2 (parseKey_termination (runes "A [x]y"))))).
    + by right.
    + discriminate.
  - apply (proj2 (proj2 (proj2 (parseKey_termination (runes "A [x]"))))).
    + by right.
    + reflexivity.
Defined.

(** C6 as stated fails: the field [A;B] ends while a primary form is
    accumulated, and the flushed token is the second primary form, not the
    only one; the field [A [x]] ends in the finished state and the field
    [A ;] in the post-primary-form state, and [parseKey] succeeds on both. *)
Lemma parseKey_termination_counterexample :
  ¬ (let v := keyRun keyInit (TrimSpace (runes "A;B")) in
     kv_state v = kanjiKS →
     parseKey (runes "A;B") = ([kv_capture v], [], None))
  ∧ ¬ (let v := keyRun keyInit (TrimSpace (runes "A [x]")) in
       kv_state v ≠ kanjiKS → (parseKey (runes "A [x]")).2 ≠ None)
  ∧ ¬ (let v := keyRun keyInit (TrimSpace (runes "A ;")) in
       kv_state v ≠ kanjiKS → kv_state v ≠ doneKS →
       (parseKey (runes "A ;")).2 ≠ None).
Proof.
  split_and!.
  - intros H. specialize (H eq_refl). by vm_compute in H.
  - intros H. by apply H.
  - intros H. by apply H.
Qed.

(** ** The line assembler *)

Lemma go_bind_Done {A B} (m : go A) (k : A → go B) b :
  m ≫= k = Done b → ∃ a, m = Done a ∧ k a = Done b.
Proof. destruct m as [a|]; [|done]. intros H. by exists a. Qed.

Lemma index_Done {A} (l : list A) i a :
  index l i = Done a ↔ 0 ≤ i ∧ l !! Z.to_nat i = Some a.
Proof.
  unfold index. case_decide; [|naive_solver].
  destruct (l !! Z.to_nat i); naive_solver.
Qed.

(** The sequence block leaves the annotations and the definitions alone. *)
Lemma sequenceOf_Done result parts r :
  sequenceOf result parts = Done r →
  Entry_Information r = Entry_Information result
  ∧ Entry_Gloss r = Entry_Gloss result.
Proof.
  unfold sequenceOf. intros H. apply go_bind_Done in H as (seq & _ & H).
  destruct (HasSuffix seq (runes "X")); by simplify_eq/=.
Qed.

(** The two outcomes of the entry-wide block when it does not return early. *)
Lemma entryDetails_Done result parts p1 r glosses :
  parts !! 1%nat = Some p1 →
  entryDetails result parts [p1] = Done (r, glosses, None) →
  (4 < len parts
   ∧ ∃ f0 f1 def details,
       Split p1 (runes "(1)") = [f0; f1]
       ∧ parseGloss (f0 ++ runes "fake definition") = (def, details, [], None)
       ∧ r = set_Information result details ∧ glosses = [f1])
  ∨ (¬ (4 < len parts ∧ len (Split p1 (runes "(1)")) = 2)
     ∧ r = result ∧ glosses = [p1]).
Proof.
  intros Hp1. unfold entryDetails.
  destruct (decide (4 < len parts)) as [Hlen|Hlen]; [|intros; simplify_eq; right; naive_solver].
  assert (index parts 1 = Done p1) as -> by (by apply index_Done).
  simpl. destruct (decide (len (Split p1 (runes "(1)")) = 2)) as [H2|H2];
    [|intros; simplify_eq; right; naive_solver].
  destruct (Split p1 (runes "(1)")) as [|f0 [|f1 [|]]] eqn:Hsplit;
    try (unfold len in H2; simpl in H2; lia).
  unfold index; simpl.
  destruct (parseGloss (f0 ++ runes "fake definition"))
    as [[[def details] xrefs] [e|]] eqn:Hpg; [done|].
  destruct xrefs; simpl; [|done]. intros; simplify_eq. left.
  split; [done|]. by exists f0, f1, def, details.
Qed.

Lemma restGlosses_Done parts glosses0 glosses :
  restGlosses parts glosses0 = Done glosses →
  glosses = glosses0 ++ middleFields parts.
Proof.
  unfold restGlosses, middleFields, slice.
  destruct (decide (4 < len parts)) as [Hlen|Hlen].
  - case_decide; [|done]. simpl. intros; simplify_eq.
    by replace (len parts - 2 - 2) with (len parts - 4) by lia.
  - intros; simplify_eq.
    replace (Z.to_nat (len parts - 4)) with 0%nat by lia.
    by rewrite take_0, app_nil_r.
Qed.

(** The loop over the gloss fields, when it runs to the end: every [(P)]
    field adds [Common] to the entry, every other field adds its parse to the
    definitions, in order. *)
Lemma glossLoop_Done result glosses r :
  glossLoop result glosses = (r, None) →
  Entry_Information r = Entry_Information result ++ commonMarks glosses
  ∧ ∃ new, Entry_Gloss r = Entry_Gloss result ++ new
           ∧ Forall2 parsesTo (definitionFields glosses) new.
Proof.
  revert result. unfold commonMarks, definitionFields.
  induction glosses as [|gloss glosses IH]; intros result H; simpl in H.
  - simplify_eq. rewrite !app_nil_r. split; [done|]. exists []. by rewrite app_nil_r.
  - destruct (decide (gloss = runes "(P)")) as [->|Hne].
    + apply IH in H as (-> & new & -> & Hnew).
      rewrite (filter_cons_True (λ f, f = runes "(P)")) by done.
      rewrite (filter_cons_False (λ f, f ≠ runes "(P)")) by (by intros ?).
      cbn [Entry_Information Entry_Gloss set_Information length replicate].
      rewrite <-app_assoc. split; [done|]. by exists new.
    + destruct (parseGloss gloss) as [[[def details] xrefs] [e|]] eqn:Hpg; [done|].
      apply IH in H as (-> & new & -> & Hnew).
      rewrite (filter_cons_False (λ f, f = runes "(P)")) by done.
      rewrite (filter_cons_True (λ f, f ≠ runes "(P)")) by done.
      cbn [Entry_Information Entry_Gloss set_Gloss].
      split; [done|]. exists (mkGloss def details xrefs :: new).
      rewrite <-app_assoc. split; [done|]. by constructor.
Qed.

Lemma singleGloss_Done result parts r :
  singleGloss result parts = Done r →
  (len parts ≤ 4 →
     ∃ g0 gs, Entry_Gloss result = g0 :: gs
       ∧ Entry_Information r = Gloss_Information g0
       ∧ Entry_Gloss r = mkGloss (Gloss_Definition g0) [] (Gloss_Xref g0) :: gs)
  ∧ (4 < len parts → r = result).
Proof.
  unfold singleGloss. case_decide as Hlen.
  - intros H. split; [intros _ | lia].
    destruct (Entry_Gloss result) as [|g0 gs] eqn:Hg; [done|].
    unfold index in H. simpl in H. rewrite Hg in H. simpl in H.
    simplify_eq. by exists g0, gs.
  - intros; simplify_eq. split; [lia | done].
Qed.

(** An accepted line went through every block of [parseLine]. *)
Lemma parseLine_accepted line e :
  parseLine line = Done (e, None) →
  let parts := Split line (runes "/") in
  ∃ r1 p0 kanji kana p1 r2 glosses0 glosses r3 r4,
    sequenceOf Entry_zero parts = Done r1
    ∧ parts !! 0%nat = Some p0 ∧ parseKey p0 = (kanji, kana, None)
    ∧ parts !! 1%nat = Some p1
    ∧ entryDetails (set_Keys r1 kanji kana) parts [p1] = Done (r2, glosses0, None)
    ∧ restGlosses parts glosses0 = Done glosses
    ∧ glossLoop (set_Gloss r2 []) glosses = (r3, None)
    ∧ singleGloss r3 parts = Done r4
    ∧ Entry_Information e = Entry_Information r4
    ∧ Entry_Gloss e = Entry_Gloss r4.
Proof.
  intros H parts. unfold parseLine in H. fold parts in H.
  apply go_bind_Done in H as (last & _ & H).
  destruct (decide (last ≠ [])); [done|].
  apply go_bind_Done in H as (r1 & Hseq & H).
  apply go_bind_Done in H as (p0 & Hp0 & H).
  destruct (parseKey p0) as [[kanji kana] [err|]] eqn:Hkey; [done|].
  apply go_bind_Done in H as (p1 & Hp1 & H).
  apply go_bind_Done in H as ([[r2 glosses0] [err|]] & Hdet & H); [done|].
  apply go_bind_Done in H as (glosses & Hrest & H).
  destruct (glossLoop (set_Gloss r2 []) glosses) as [r3 [err|]] eqn:Hloop; [done|].
  apply go_bind_Done in H as (r4 & Hsingle & H).
  apply go_bind_Done in H as (kanji' & _ & H).
  apply go_bind_Done in H as (kana' & _ & H).
  apply index_Done in Hp0 as [_ Hp0]. apply index_Done in Hp1 as [_ Hp1].
  exists r1, p0, kanji, kana, p1, r2, glosses0, glosses, r3, r4.
  by simplify_eq/=.
Qed.

(** The entry-wide annotations and the definitions of an accepted line. *)
Lemma parseLine_accepted_shape line e p1 :
  parseLine line = Done (e, None) →
  let parts := Split line (runes "/") in
  parts !! 1%nat = Some p1 →
  (len parts ≤ 4 →
     ∃ g, parsesTo p1 g
       ∧ Entry_Information e = Gloss_Information g
       ∧ Entry_Gloss e = [mkGloss (Gloss_Definition g) [] (Gloss_Xref g)])
  ∧ (4 < len parts →
     ∃ first info0,
       ((∃ f0 def, Split p1 (runes "(1)") = [f0; first]
           ∧ parseGloss (f0 ++ runes "fake definition") = (def, info0, [], None))
        ∨ (len (Split p1 (runes "(1)")) ≠ 2 ∧ first = p1 ∧ info0 = []))
       ∧ Entry_Information e
         = info0 ++ commonMarks (first :: middleFields parts)
       ∧ Forall2 parsesTo (definitionFields (first :: middleFields parts))
           (Entry_Gloss e)).
Proof.
  intros H parts Hp1.
  destruct (parseLine_accepted _ _ H)
    as (r1 & p0 & kanji & kana & p1' & r2 & glosses0 & glosses & r3 & r4
        & Hseq & _ & _ & Hp1' & Hdet & Hrest & Hloop & Hsingle & -> & ->).
  fold parts in Hseq, Hp1', Hdet, Hrest, Hsingle.
  assert (p1' = p1) as -> by congruence.
  apply sequenceOf_Done in Hseq as [Hi1 Hg1]. simpl in Hi1, Hg1.
  apply restGlosses_Done in Hrest as ->.
  apply glossLoop_Done in Hloop as (Hi3 & new & Hg3 & Hnew).
  simpl in Hi3, Hg3.
  apply singleGloss_Done in Hsingle as [Hsingle Hmulti].
  destruct (entryDetails_Done _ _ _ _ _ Hp1 Hdet)
    as [(Hlen & f0 & f1 & def & details & Hsplit & Hpg & -> & ->)
       |(Hno & -> & ->)]; simpl in Hi3.
  - split; [lia|]. intros _. rewrite (Hmulti Hlen), Hi3, Hg3.
    exists f1, details. split_and!; [left; by exists f0, def | done..].
  - split.
    + intros Hlen. destruct (Hsingle Hlen) as (g0 & gs & Hg & -> & ->).
      unfold middleFields in Hnew. 
      replace (Z.to_nat (len parts - 4)) with 0%nat in Hnew by lia.
      rewrite take_0 in Hnew. simpl in Hnew. rewrite Hg3 in Hg.
      unfold definitionFields in Hnew. simpl in Hnew.
      destruct (decide (p1 ≠ runes "(P)")).
      * rewrite filter_cons_True in Hnew by done.
        apply Forall2_cons_inv_l in Hnew as (g & new' & Hg0 & Hnil & ->).
        apply Forall2_nil_inv_l in Hnil as ->. simplify_eq. by exists g0.
      * rewrite filter_cons_False in Hnew by done.
        apply Forall2_nil_inv_l in Hnew as ->. done.
    + intros Hlen. rewrite (Hmulti Hlen), Hi3, Hg3, Hi1.
      exists p1, []. split_and!; [right; naive_solver | done..].
Qed.

(** C1 (amended).  For an accepted line, the entry-wide details are taken
    from the first gloss field exactly when the line has more than four
    [/]-separated parts (at least two definition fields) and splitting the
    first gloss field on the marker [(1)] gives exactly two pieces.  Then
    the piece before the marker, followed by a placeholder body, parses
    without error and without cross-reference, its annotation list opens
    the entry-wide [Information] (each [(P)] field then adds [Common]), and
    the piece after the marker is the first definition field.  With more
    than four parts and any other number of pieces, and with at most four
    parts, the first gloss field is parsed whole. *)
Theorem parseLine_scope_redistribution line e p1 :
  parseLine line = Done (e, None) →
  let parts := Split line (runes "/") in
  parts !! 1%nat = Some p1 →
  (4 < len parts → ∀ f0 f1, Split p1 (runes "(1)") = [f0; f1] →
     ∃ def details,
       parseGloss (f0 ++ runes "fake definition") = (def, details, [], None)
       ∧ Entry_Information e = details ++ commonMarks (f1 :: middleFields parts)
       ∧ Forall2 parsesTo (definitionFields (f1 :: middleFields parts))
           (Entry_Gloss e))
  ∧ (4 < len parts → len (Split p1 (runes "(1)")) ≠ 2 →
     Entry_Information e = commonMarks (p1 :: middleFields parts)
     ∧ Forall2 parsesTo (definitionFields (p1 :: middleFields parts))
         (Entry_Gloss e))
  ∧ (len parts ≤ 4 →
     ∃ g, parsesTo p1 g
       ∧ Entry_Information e = Gloss_Information g
       ∧ Entry_Gloss e = [mkGloss (Gloss_Definition g) [] (Gloss_Xref g)]).
Proof.
  intros H parts Hp1.
  destruct (parseLine_accepted_shape line e p1 H Hp1) as [Hsingle Hmulti].
  fold parts in Hsingle, Hmulti. split_and!; [| |done].
  - intros Hlen f0 f1 Hsplit.
    destruct (Hmulti Hlen)
      as (first & info0 & [(f0' & def & Hs & Hpg)|(Hn & _)] & Hi & Hg).
    + rewrite Hsplit in Hs. simplify_eq. by exists def, info0.
    + by rewrite Hsplit in Hn.
  - intros Hlen Hn.
    destruct (Hmulti Hlen)
      as (first & info0 & [(f0' & def & Hs & Hpg)|(_ & -> & ->)] & Hi & Hg).
    + by rewrite Hs in Hn.
    + done.
Qed.

Lemma parseLine_scope_redistribution_witness :
  ∃ def details,
    parseGloss (runes "(n) " ++ runes "fake definition") = (def, details, [], None)
    ∧ [N; Common]
      = details ++ commonMarks [runes " (uk) curry"; runes "(2) rice"; runes "(P)"]
    ∧ Forall2 parsesTo
        (definitionFields [runes " (uk) curry"; runes "(2) rice"; runes "(P)"])
        [mkGloss (runes "curry") [Uk] []; mkGloss (runes "rice") [] []].
Proof.
  apply (proj1 (parseLine_scope_redistribution
                  (runes "k [ka] /(n) (1) (uk) curry/(2) rice/(P)/1X/")
                  (mkEntry [runes "k"] [runes "ka"] [N; Common]
                     [mkGloss (runes "curry") [Uk] []; mkGloss (runes "rice") [] []]
                     (runes "1") true)
                  (runes "(n) (1) (uk) curry") eq_refl eq_refl)
           eq_refl (runes "(n) ") (runes " (uk) curry") eq_refl).
Defined.

(** C1 as stated fails in both directions.  The first line has exactly two
    definition fields, yet its first gloss field is not parsed whole: the
    annotation before the marker went to the entry.  The second line has
    three definition fields, yet nothing is redistributed, because the
    marker occurs twice in its first gloss field: the entry-wide list stays
    empty and the first gloss field is parsed whole. *)
Lemma parseLine_scope_redistribution_counterexample :
  (let line := runes "J [j] /(n) (1) (abbr) my name/(2) (uk) dog/1/" in
   let parts := Split line (runes "/") in
   len parts - 3 = 2
   ∧ ¬ (∀ e, parseLine line = Done (e, None) → Entry_Information e = [])
   ∧ ¬ (∀ e p1 g gs,
          parseLine line = Done (e, None) → parts !! 1%nat = Some p1 →
          Entry_Gloss e = g :: gs → parsesTo p1 g))
  ∧ (let line := runes "k /(n) (1) a (1) b/c/d/1/" in
     let parts := Split line (runes "/") in
     len parts - 3 = 3
     ∧ ¬ (∀ e, parseLine line = Done (e, None) → Entry_Information e = [N])
     ∧ ∃ e p1 g gs,
         parseLine line = Done (e, None) ∧ parts !! 1%nat = Some p1
         ∧ Entry_Gloss e = g :: gs ∧ parsesTo p1 g).
Proof.
  split; (split; [reflexivity|]); split.
  - intros H. by specialize (H _ eq_refl).
  - intros H. by specialize (H _ _ _ _ eq_refl eq_refl eq_refl).
  - intros H. by specialize (H _ eq_refl).
  - by eexists _, _, _, _.
Qed.

(** The guard of the promotion block counts the parts of the line, not the
    definitions produced.  An accepted line with at most four parts (one
    definition field) has exactly one definition, whose annotation list has
    become the entry-wide [Information] and is left empty.  In an accepted
    line with more than four parts every definition keeps the annotation
    list its field parsed to, whatever the number of definitions; and a line
    with more than one definition has more than four parts. *)
Theorem parseLine_single_gloss_promotion line e p1 :
  parseLine line = Done (e, None) →
  let parts := Split line (runes "/") in
  parts !! 1%nat = Some p1 →
  (len parts ≤ 4 →
     ∃ g, parsesTo p1 g
       ∧ Entry_Information e = Gloss_Information g
       ∧ Entry_Gloss e = [mkGloss (Gloss_Definition g) [] (Gloss_Xref g)])
  ∧ (4 < len parts →
     ∃ first, (first = p1 ∨ ∃ f0, Split p1 (runes "(1)") = [f0; first])
       ∧ Forall2 parsesTo (definitionFields (first :: middleFields parts))
           (Entry_Gloss e))
  ∧ ((1 < length (Entry_Gloss e))%nat → 4 < len parts).
Proof.
  intros H parts Hp1.
  destruct (parseLine_accepted_shape line e p1 H Hp1) as [Hsingle Hmulti].
  fold parts in Hsingle, Hmulti. split_and!; [done| |].
  - intros Hlen.
    destruct (Hmulti Hlen)
      as (first & info0 & [(f0 & def & Hs & _)|(_ & -> & _)] & _ & Hg).
    + exists first. split; [right; by exists f0 | done].
    + exists p1. by split; [left|].
  - intros Hn. destruct (decide (4 < len parts)) as [|Hlen]; [done|].
    destruct Hsingle as (g & _ & _ & Hg); [lia|]. rewrite Hg in Hn.
    simpl in Hn. lia.
Qed.

Lemma parseLine_single_gloss_promotion_witness :
  ∃ g, parsesTo (runes "(n) (arch) (See c) leg") g
    ∧ [N; Arch] = Gloss_Information g
    ∧ [mkGloss (runes "leg") [] [runes "c"]]
      = [mkGloss (Gloss_Definition g) [] (Gloss_Xref g)].
Proof.
  apply (proj1 (parseLine_single_gloss_promotion
                  (runes "a [b] /(n) (arch) (See c) leg/7/")
                  (mkEntry [runes "a"] [runes "b"] [N; Arch]
                     [mkGloss (runes "leg") [] [runes "c"]] (runes "7") false)
                  (runes "(n) (arch) (See c) leg") eq_refl eq_refl)).
  compute_done.
Defined.

(** C2.  The code breaks the claim on the line [A /(n) foo/(P)/1/].  The
    line is accepted and has five parts; its field [(P)] yields no
    definition, so the line produces exactly one definition.  Yet the
    annotation [N] stays on that definition and the entry-wide
    [Information] holds only [Common]: the block that the source comments
    as transferring the details to the entry when there is only one gloss is
    skipped, because its guard counts the parts.  The same
    line without the field [(P)] has four parts, and there the annotation is
    promoted and the definition's own list is left empty. *)
Theorem parseLine_single_gloss_not_promoted :
  parseLine (runes "A /(n) foo/(P)/1/")
  = Done (mkEntry [runes "A"] [] [Common] [mkGloss (runes "foo") [N] []]
            (runes "1") false, None)
  ∧ len (Split (runes "A /(n) foo/(P)/1/") (runes "/")) = 5
  ∧ parseLine (runes "A /(n) foo/1/")
    = Done (mkEntry [runes "A"] [] [N] [mkGloss (runes "foo") [] []]
              (runes "1") false, None)
  ∧ len (Split (runes "A /(n) foo/1/") (runes "/")) = 4.
Proof. by vm_compute. Qed.

(** C4 (amended).  An accepted line with at most four parts has exactly one
    definition.  An accepted line with more than four parts has one
    definition for each definition field other than [(P)], the first field
    being taken after the redistribution; so its definitions can only be
    missing when every field between the first one and the identifier is
    [(P)]. *)
Theorem parseLine_gloss_count line e p1 :
  parseLine line = Done (e, None) →
  let parts := Split line (runes "/") in
  parts !! 1%nat = Some p1 →
  (len parts ≤ 4 → length (Entry_Gloss e) = 1%nat)
  ∧ (4 < len parts →
     ∃ first, (first = p1 ∨ ∃ f0, Split p1 (runes "(1)") = [f0; first])
       ∧ length (Entry_Gloss e)
         = length (definitionFields (first :: middleFields parts)))
  ∧ (Entry_Gloss e = [] →
     4 < len parts ∧ Forall (λ f, f = runes "(P)") (middleFields parts)).
Proof.
  intros H parts Hp1.
  destruct (parseLine_accepted_shape line e p1 H Hp1) as [Hsingle Hmulti].
  fold parts in Hsingle, Hmulti.
  assert (Hcount : 4 < len parts →
     ∃ first, (first = p1 ∨ ∃ f0, Split p1 (runes "(1)") = [f0; first])
       ∧ length (Entry_Gloss e)
         = length (definitionFields (first :: middleFields parts))).
  { intros Hlen.
    destruct (Hmulti Hlen)
      as (first & info0 & [(f0 & def & Hs & _)|(_ & -> & _)] & _ & Hg);
      apply Forall2_length in Hg.
    - exists first. split; [right; by exists f0 | done].
    - exists p1. by split; [left|]. }
  split_and!; [|done|].
  - intros Hlen. destruct (Hsingle Hlen) as (g & _ & _ & ->). done.
  - intros Hnil. destruct (decide (4 < len parts)) as [Hlen|Hlen].
    + split; [done|]. destruct (Hcount Hlen) as (first & _ & Hl).
      rewrite Hnil in Hl. symmetry in Hl. apply nil_length_inv in Hl.
      unfold definitionFields in Hl.
      apply Forall_forall. intros f Hf.
      destruct (decide (f = runes "(P)")) as [|Hne]; [done|].
      assert (f ∈ filter (λ f, f ≠ runes "(P)") (first :: middleFields parts))
        as Hin by (apply list_elem_of_filter; set_solver).
      rewrite Hl in Hin. by apply elem_of_nil in Hin.
    + destruct (Hsingle ltac:(lia)) as (g & _ & _ & Hg). by rewrite Hg in Hnil.
Qed.

Lemma parseLine_gloss_count_witness :
  ∃ first,
    (first = runes "(n) crop"
     ∨ ∃ f0, Split (runes "(n) crop") (runes "(1)") = [f0; first])
    ∧ length [mkGloss (runes "crop") [N] []; mkGloss (runes "craw") [] []]
      = length (definitionFields [first; runes "craw"]).
Proof.
  apply (proj1 (proj2 (parseLine_gloss_count
                  (runes "s /(n) crop/craw/3/")
                  (mkEntry [runes "s"] [] []
                     [mkGloss (runes "crop") [N] []; mkGloss (runes "craw") [] []]
                     (runes "3") false)
                  (runes "(n) crop") eq_refl eq_refl))).
  compute_done.
Defined.

(** C4 as stated fails: this line is accepted and has no definition. *)
Lemma parseLine_gloss_count_counterexample :
  ¬ (∀ e, parseLine (runes "A /(P)/(P)/1/") = Done (e, None) →
          Entry_Gloss e ≠ []).
Proof. intros H. by apply (H _ eq_refl). Qed.

(** ** Panics *)

Lemma index_last {A} (l : list A) x : last l = Some x → index l (len l - 1) = Done x.
Proof.
  intros H. rewrite last_lookup in H. apply index_Done.
  assert (length l ≠ 0)%nat by (by destruct l).
  unfold len. split; [lia|].
  by replace (Z.to_nat (Z.of_nat (length l) - 1)) with (pred (length l)) by lia.
Qed.

(** C3.  [parseLine] is not total.  Splitting the empty line gives a single
    element, so the line passes the trailing-blank test and panics on
    [parts[len(parts)-2]].  A line with at most four parts whose key field
    parses and whose definition field is exactly [(P)] panics on
    [result.Gloss[0]], the gloss list being empty; [A /(P)/1/] is such a
    line.  [Parse] panics when [parseLine] does, hence on the input whose
    only line is empty. *)
Theorem parseLine_panics :
  (Split [] (runes "/") = [[]] ∧ parseLine [] = Panic)
  ∧ (∀ line p0 kanji kana,
       let parts := Split line (runes "/") in
       len parts ≤ 4 → last parts = Some [] →
       parts !! 0%nat = Some p0 → parseKey p0 = (kanji, kana, None) →
       parts !! 1%nat = Some (runes "(P)") →
       parseLine line = Panic)
  ∧ parseLine (runes "A /(P)/1/") = Panic
  ∧ (∀ l lines err, parseLine l = Panic → Parse (mkScanner (l :: lines) err) = Panic)
  ∧ Parse (mkScanner [[]] None) = Panic.
Proof.
  split_and!; [done | done | | done | | done].
  - intros line p0 kanji kana parts Hlen Hlast Hp0 Hkey Hp1.
    unfold parseLine. fold parts.
    rewrite (index_last _ _ Hlast). simpl.
    assert (∃ seq, index parts (len parts - 2) = Done seq) as [seq Hseq].
    { assert (1 < length parts)%nat by (by apply lookup_lt_Some in Hp1).
      destruct (lookup_lt_is_Some_2 parts (Z.to_nat (len parts - 2))) as [seq Hs].
      - unfold len. lia.
      - exists seq. apply index_Done. unfold len in *. split; [lia|done]. }
    assert (index parts 0 = Done p0) as -> by (by apply index_Done).
    assert (index parts 1 = Done (runes "(P)")) as -> by (by apply index_Done).
    unfold sequenceOf. rewrite Hseq. simpl.
    unfold entryDetails, restGlosses, singleGloss.
    destruct (HasSuffix seq (runes "X")); simpl; rewrite Hkey; simpl;
      repeat (rewrite (decide_False (P := 4 < len parts)) by lia; simpl);
      by rewrite (decide_True (P := len parts ≤ 4)).
  - intros l lines err Hl. unfold Parse. simpl. by rewrite Hl.
Qed.

Lemma parseLine_panics_witness : parseLine (runes "B [b] /(P)/22X/") = Panic.
Proof.
  apply (proj1 (proj2 parseLine_panics) (runes "B [b] /(P)/22X/")
           (runes "B [b] ") [runes "B"] [runes "b"]); reflexivity || done.
Defined.

(** ** The batch driver *)

Lemma blacklist_test line :
  existsb (λ knownBadLine, bool_decide (knownBadLine = line)) blacklist
  = bool_decide (line ∈ blacklist).
Proof.
  apply eq_true_iff_eq. rewrite existsb_exists, bool_decide_eq_true.
  split.
  - intros (k & Hin & Hk). apply bool_decide_eq_true in Hk as ->.
    by apply list_elem_of_In.
  - intros Hin. exists line. split; [by apply list_elem_of_In|].
    by apply bool_decide_eq_true.
Qed.

Lemma records_cons l lines : records (l :: lines) = recordOf l ++ records lines.
Proof. done. Qed.







Lemma genSplit_loop_nonempty n s sep : genSplit_loop n s sep ≠ [].
Proof. destruct n; simpl; [done|]. by destruct (Index s sep). Qed.

(** With a separator that is not empty, [Split] returns at least one piece,
    so [fixKey] cannot panic. *)
Lemma Split_nonempty s sep : sep ≠ [] → Split s sep ≠ [].
Proof.
  intros Hne. unfold Split. rewrite decide_False by done.
  apply genSplit_loop_nonempty.
Qed.

Lemma fixKey_total key : ∃ k, fixKey key = Done k.
Proof.
  unfold fixKey. destruct (ContainsRune key (rn "(")); [|by eexists].
  pose proof (Split_nonempty key (runes "(") ltac:(done)) as H.
  destruct (Split key (runes "(")) as [|k ?]; [done|]. by exists k.
Qed.

(** ** The repository's tests, run on the model *)

(** [TestDetailString] and [TestDetailFor]. *)
Example test_DetailString : Detail_String Vs_c = runes "vs-c".
Proof. reflexivity. Qed.

Example test_DetailFor :
  map_Forall (λ id str, DetailFor !! str = Some id) DetailString.
Proof. intros id str H. by apply DetailFor_inverts_DetailString_table. Qed.

(** [TestParseIdentifier]; the third input is [See ] followed by U+3042,
    U+30FB, U+3044. *)
Example test_parseIdentifier :
  parseIdentifier (runes "42") = (none, [])
  ∧ parseIdentifier (runes "See foo") = (xref, runes "foo")
  ∧ parseIdentifier (runes "See " ++ [12354; 12539; 12356])
    = (xref, [12354; 12539; 12356])
  ∧ parseIdentifier (runes "n") = (detail, runes "n")
  ∧ parseIdentifier (runes "esp. ") = (text, runes "esp. ").
Proof. by vm_compute. Qed.

(** [TestParseGloss]. *)
Example test_parseGloss :
  parseGloss (runes "(n) foo") = (runes "foo", [N], [], None)
  ∧ parseGloss (runes "(n,adj-no) foo") = (runes "foo", [N; Adj_no], [], None)
  ∧ parseGloss (runes "(See foobar) foo") = (runes "foo", [], [runes "foobar"], None)
  ∧ parseGloss (runes "(n) (See foobar) foo")
    = (runes "foo", [N], [runes "foobar"], None)
  ∧ parseGloss (runes "foo") = (runes "foo", [], [], None)
  ∧ parseGloss (runes "(1) (abbr) (uK) (See foobar) foo")
    = (runes "foo", [Abbr; UK], [runes "foobar"], None).
Proof. by vm_compute. Qed.

(** [TestParseKey]. *)
Example test_parseKey :
  parseKey (runes "A;B;C [x;y;z]")
  = ([runes "A"; runes "B"; runes "C"], [runes "x"; runes "y"; runes "z"], None)
  ∧ parseKey (runes "A [x]") = ([runes "A"], [runes "x"], None)
  ∧ parseKey (runes "A") = ([runes "A"], [], None)
  ∧ parseKey (runes "A;B") = ([runes "A"; runes "B"], [], None)
  ∧ parseKey (runes "A;B  [C;D]")
    = ([runes "A"; runes "B"], [runes "C"; runes "D"], None)
  ∧ parseKey (runes "A;B [C")
    = ([runes "A"; runes "B"], [], Some (ErrKeyState kanaKS (runes "A;B [C"))).
Proof. by vm_compute. Qed.

(** [TestFixKey]. *)
Example test_fixKey :
  fixKey (runes "foo(bar) (baz) (quux)") = Done (runes "foo")
  ∧ fixKey (runes "foo(bar)") = Done (runes "foo")
  ∧ fixKey (runes "foo") = Done (runes "foo").
Proof. by vm_compute. Qed.

(** [TestParseLine]; the kanji and kana of the two lines are given by their
    code points. *)
Example test_parseLine :
  parseLine
    ([21014] ++ runes " [" ++ [12370; 12388]
     ++ runes "] /(n) (arch) (obsc) (See " ++ [21077]
     ++ runes ") cutting off the leg at the knee (form of punishment in ancient China)/EntL2542160/")
  = Done (mkEntry [[21014]] [[12370; 12388]] [N; Arch; Obsc]
            [mkGloss
               (runes "cutting off the leg at the knee (form of punishment in ancient China)")
               [] [[21077]]]
            (runes "EntL2542160") false,
          None)
  ∧ parseLine
      ([12472; 12519; 12531] ++ runes ";Jon [" ++ [12376; 12423; 12435]
       ++ runes "] /(n) (1) (abbr) (uK) (See jrockway) my name/(2) (uk) apparently a common name for dogs/EntL0000000/")
    = Done (mkEntry [[12472; 12519; 12531]; runes "Jon"] [[12376; 12423; 12435]] [N]
              [mkGloss (runes "my name") [Abbr; UK] [runes "jrockway"];
               mkGloss (runes "apparently a common name for dogs") [Uk] []]
              (runes "EntL0000000") false,
            None).
Proof. by vm_compute. Qed.

(** * Further properties *)

(** ** More on the library model *)

Lemma TrimLeftSpace_app ws s : allSpace ws → TrimLeftSpace (ws ++ s) = TrimLeftSpace s.
Proof. induction 1 as [|c ws Hc _ IH]; [done|]. simpl. by rewrite Hc. Qed.

Lemma TrimLeftSpace_allSpace ws : allSpace ws → TrimLeftSpace ws = [].
Proof. intros H. rewrite <-(app_nil_r ws). by rewrite TrimLeftSpace_app. Qed.

Lemma allSpace_reverse ws : allSpace ws → allSpace (reverse ws).
Proof. unfold allSpace. by rewrite Forall_reverse. Qed.

(** [TrimLeftSpace] returns a suffix that is empty or starts with a rune
    that is not white space. *)
Lemma TrimLeftSpace_spec s :
  ∃ ws, allSpace ws ∧ s = ws ++ TrimLeftSpace s
    ∧ (TrimLeftSpace s = [] ∨ ∃ c r, TrimLeftSpace s = c :: r ∧ IsSpace c = false).
Proof.
  induction s as [|c s (ws & Hws & Hs & Hh)].
  - exists []. split_and!; [constructor | done | by left].
  - simpl. destruct (IsSpace c) eqn:Hc.
    + exists (c :: ws). split_and!; [by constructor | by rewrite Hs at 1 | done].
    + exists []. split_and!; [constructor | done | right; by exists c, s].
Qed.

(** White space around a string does not change what [TrimSpace] returns. *)
Lemma TrimSpace_app ws1 s ws2 :
  allSpace ws1 → allSpace ws2 → TrimSpace (ws1 ++ s ++ ws2) = TrimSpace s.
Proof.
  intros H1 H2. unfold TrimSpace. rewrite TrimLeftSpace_app by done.
  destruct (TrimLeftSpace_spec s) as (ws & Hws & Hs & Hh).
  assert (TrimLeftSpace (s ++ ws2) = TrimLeftSpace (TrimLeftSpace s ++ ws2)) as ->.
  { rewrite Hs at 1. by rewrite <-app_assoc, TrimLeftSpace_app. }
  destruct Hh as [->|(c & r & -> & Hc)].
  - rewrite app_nil_l, (TrimLeftSpace_allSpace ws2) by done. reflexivity.
  - rewrite <-app_comm_cons, TrimLeftSpace_nonspace by done.
    rewrite app_comm_cons, reverse_app.
    by rewrite TrimLeftSpace_app by (by apply allSpace_reverse).
Qed.

Lemma TrimSpace_allSpace ws : allSpace ws → TrimSpace ws = [].
Proof.
  intros H. unfold TrimSpace. rewrite (TrimLeftSpace_allSpace ws) by done.
  reflexivity.
Qed.

(** What [TrimSpace] returns is empty, or starts and ends with runes that are
    not white space; trimming is idempotent. *)
Lemma TrimSpace_spec s :
  TrimSpace s = []
  ∨ ∃ c r r' c', TrimSpace s = c :: r ∧ c :: r = r' ++ [c']
      ∧ IsSpace c = false ∧ IsSpace c' = false.
Proof.
  unfold TrimSpace.
  destruct (TrimLeftSpace_spec s) as (ws & _ & _ & Hh).
  destruct Hh as [->|(c & r & -> & Hc)]; [by left|].
  destruct (TrimLeftSpace_spec (reverse (c :: r))) as (ws' & Hws' & Hs' & Hh').
  destruct Hh' as [Hnil|(c' & r' & Hcr' & Hc')].
  - rewrite Hnil, app_nil_r in Hs'. rewrite <-Hs' in Hws'.
    apply Forall_reverse in Hws'. rewrite reverse_involutive in Hws'.
    apply Forall_cons in Hws' as [Hc1 _]. congruence.
  - right. rewrite Hcr'. rewrite Hcr' in Hs'.
    apply (f_equal reverse) in Hs'.
    rewrite reverse_involutive, reverse_app, reverse_cons in Hs'.
    assert (∃ y, reverse ws' = y ∧ reverse r' ++ [c'] ++ y = c :: r)
      as (y & Hy & E) by (exists (reverse ws'); by rewrite Hs', <-app_assoc).
    rewrite reverse_cons.
    destruct (reverse r') as [|x z] eqn:Ez.
    + by exists c', [], [], c'.
    + exists x, (z ++ [c']), (x :: z), c'. split_and!; [done..| |done].
      simpl in E. by injection E as -> _.
Qed.

Lemma TrimSpace_idemp s : TrimSpace (TrimSpace s) = TrimSpace s.
Proof.
  destruct (TrimSpace_spec s) as [->|(c & r & r' & c' & -> & E & Hc & Hc')]; [done|].
  by apply (TrimSpace_id c r r' c').
Qed.

(** ** More on the gloss parser *)

Lemma glossRun_definition_eq v s :
  gv_state v = definitionGS →
  glossRun v s
  = mkGlossVars definitionGS (gv_captured v) (gv_defcapture v ++ s)
      (gv_details v) (gv_xrefs v) (gv_err v).
Proof.
  revert v. induction s as [|c s IH]; intros v Hv.
  - destruct v; simplify_eq/=. by rewrite app_nil_r.
  - rewrite glossRun_cons, IH by (destruct v; by simplify_eq/=).
    destruct v; simplify_eq/=. by rewrite <-app_assoc.
Qed.

(** A string with a first and a last rune that are not white space is left
    alone by [TrimSpace]. *)
Lemma TrimSpace_id_last c s c' :
  IsSpace c = false → last (c :: s) = Some c' → IsSpace c' = false →
  TrimSpace (c :: s) = c :: s.
Proof.
  intros Hc Hl Hc'. apply last_Some in Hl as [s' Hs'].
  by apply (TrimSpace_id c s s' c').
Qed.

(** X1.  Once the definition text has begun, every further rune, parentheses
    and commas included, is appended to it and nothing else changes; so a
    gloss whose trimmed text does not start with an opening parenthesis is
    returned as that text, without annotation, cross-reference or error. *)
Theorem parseGloss_definition_verbatim :
  (∀ v s, gv_state v = definitionGS →
     glossRun v s
     = mkGlossVars definitionGS (gv_captured v) (gv_defcapture v ++ s)
         (gv_details v) (gv_xrefs v) (gv_err v))
  ∧ (∀ gloss c rest, TrimSpace gloss = c :: rest → c ≠ rn "(" →
       parseGloss gloss = (c :: rest, [], [], None)).
Proof.
  split; [apply glossRun_definition_eq|].
  intros gloss c rest Ht Hc. unfold parseGloss. rewrite Ht.
  rewrite glossRun_cons.
  assert (glossStep glossInit c = mkGlossVars definitionGS [] [c] [] [] None) as ->.
  { simpl. by rewrite decide_False. }
  rewrite glossRun_definition_eq by done. reflexivity.
Qed.

Lemma parseGloss_definition_verbatim_witness :
  parseGloss (runes "  to run (fast), (n) quickly ")
  = (runes "to run (fast), (n) quickly", [], [], None).
Proof.
  apply (proj2 parseGloss_definition_verbatim
           (runes "  to run (fast), (n) quickly ") (rn "t")
           (runes "o run (fast), (n) quickly")); [reflexivity | discriminate].
Defined.

Lemma glossStep_defcapture_nonempty v c :
  (gv_state v = definitionGS → gv_defcapture v ≠ []) →
  gv_state (glossStep v c) = definitionGS → gv_defcapture (glossStep v c) ≠ [].
Proof.
  destruct v as [state captured defcapture details xrefs err]. simpl.
  intros Hinv. destruct state; simpl.
  - destruct (decide _); simpl; [done|]. intros _. by destruct defcapture.
  - destruct (decide _); [|destruct (decide _)].
    + destruct (parseIdentifier captured) as [[] ?]; simpl; try done.
      intros _. by destruct defcapture.
    + destruct (parseIdentifier captured) as [class ?].
      by destruct (decide (class = detail)).
    + done.
  - by destruct (decide _).
  - intros _. by destruct defcapture.
Qed.

Lemma glossRun_defcapture_nonempty v s :
  (gv_state v = definitionGS → gv_defcapture v ≠ []) →
  gv_state (glossRun v s) = definitionGS → gv_defcapture (glossRun v s) ≠ [].
Proof.
  revert v. induction s as [|c s IH]; intros v Hv; [done|].
  rewrite glossRun_cons. apply IH. by apply glossStep_defcapture_nonempty.
Qed.

(** X2.  A gloss that parses without error has a definition that is not
    empty: the definition state is only entered with a rune or a
    parenthesised text in the buffer. *)
Theorem parseGloss_definition_nonempty gloss def details xrefs :
  parseGloss gloss = (def, details, xrefs, None) → def ≠ [].
Proof.
  unfold parseGloss.
  destruct (decide (gv_state _ ≠ definitionGS)) as [|Hs]; [done|].
  intros H. simplify_eq. apply glossRun_defcapture_nonempty; [done|].
  by destruct (decide (gv_state (glossRun glossInit (TrimSpace gloss)) = definitionGS)).
Qed.

Lemma parseGloss_definition_nonempty_witness : runes "(esp.) foo" ≠ [].
Proof.
  apply (parseGloss_definition_nonempty (runes "(esp.) foo") _ [] []).
  reflexivity.
Defined.

(** X3.  White space around a gloss field or a key field is ignored, in the
    results and in the errors alike; a gloss field of white space only (the
    empty field included) fails, while a key field of white space only is
    accepted and yields a single, empty primary form. *)
Theorem surrounding_white_space ws1 s ws2 :
  allSpace ws1 → allSpace ws2 →
  parseGloss (ws1 ++ s ++ ws2) = parseGloss s
  ∧ parseKey (ws1 ++ s ++ ws2) = parseKey s
  ∧ parseGloss ws1 = ([], [], [], Some (ErrNotDefinition [] [] []))
  ∧ parseKey ws1 = ([[]], [], None).
Proof.
  intros H1 H2. unfold parseGloss, parseKey.
  rewrite (TrimSpace_app ws1 s ws2), (TrimSpace_allSpace ws1) by done.
  split_and!; reflexivity.
Qed.

Lemma surrounding_white_space_witness :
  parseGloss (runes "  " ++ runes "A [x]" ++ [12288; 9]) = parseGloss (runes "A [x]")
  ∧ parseKey (runes "  " ++ runes "A [x]" ++ [12288; 9]) = parseKey (runes "A [x]")
  ∧ parseGloss (runes "  ") = ([], [], [], Some (ErrNotDefinition [] [] []))
  ∧ parseKey (runes "  ") = ([[]], [], None).
Proof.
  apply (surrounding_white_space (runes "  ") _ [12288; 9]);
    repeat constructor.
Defined.

Lemma glossRun_capture_plain v t :
  gv_state v = captureGS → rn ")" ∉ t → rn "," ∉ t →
  glossRun v t
  = mkGlossVars captureGS (gv_captured v ++ t) (gv_defcapture v)
      (gv_details v) (gv_xrefs v) (gv_err v).
Proof.
  revert v. induction t as [|c t IH]; intros v Hv Hp Hc.
  - destruct v; simplify_eq/=. by rewrite app_nil_r.
  - apply not_elem_of_cons in Hp as [Hp1 Hp2].
    apply not_elem_of_cons in Hc as [Hc1 Hc2].
    assert (glossStep v c
            = mkGlossVars captureGS (gv_captured v ++ [c]) (gv_defcapture v)
                (gv_details v) (gv_xrefs v) (gv_err v)) as Hstep.
    { destruct v; simplify_eq/=. by rewrite !decide_False by done. }
    rewrite glossRun_cons, Hstep, IH by done. simpl. by rewrite <-app_assoc.
Qed.

(** A closed structural tag followed by a space, read from the start state:
    the annotation or the cross-reference it stands for is appended, an
    ordinal leaves no trace. *)
Lemma glossRun_isTag v t :
  gv_state v = startGS → gv_captured v = [] → isTag t →
  glossRun v (parenthetical t ++ [rn " "])
  = mkGlossVars startGS [] (gv_defcapture v)
      (gv_details v ++ tagDetails [t]) (gv_xrefs v ++ tagXrefs [t]) (gv_err v).
Proof.
  intros Hs Hc (Hp & Hcomma & Hclass). unfold parenthetical.
  rewrite glossRun_snoc, glossRun_cons, glossRun_snoc.
  destruct v as [state captured defcapture details xrefs err]. simplify_eq/=.
  rewrite glossRun_capture_plain by done. simpl.
  unfold tagDetails, tagXrefs. simpl.
  destruct (parseIdentifier t) as [[] identifier]; simpl in *;
    rewrite ?app_nil_r; done.
Qed.

Lemma tagDetails_cons t tags : tagDetails (t :: tags) = tagDetails [t] ++ tagDetails tags.
Proof. unfold tagDetails. simpl. by rewrite app_nil_r. Qed.

Lemma tagXrefs_cons t tags : tagXrefs (t :: tags) = tagXrefs [t] ++ tagXrefs tags.
Proof. unfold tagXrefs. simpl. by rewrite app_nil_r. Qed.

Lemma glossRun_tags_text v tags d c :
  gv_state v = startGS → gv_captured v = [] → Forall isTag tags →
  head d = Some c → c ≠ rn "(" →
  glossRun v (tagsThenText tags d)
  = mkGlossVars definitionGS [] (gv_defcapture v ++ d)
      (gv_details v ++ tagDetails tags) (gv_xrefs v ++ tagXrefs tags) (gv_err v).
Proof.
  intros Hs Hc Htags Hd Hne. revert v Hs Hc. unfold tagsThenText.
  induction Htags as [|t tags Ht _ IH]; intros v Hs Hc.
  - destruct d as [|c' d]; simplify_eq/=.
    change (glossRun v (c :: d)) with (glossRun (glossStep v c) d).
    destruct v as [state captured defcapture details xrefs err]. simplify_eq/=.
    rewrite decide_False by done.
    rewrite glossRun_definition_eq by done. simpl.
    by rewrite <-app_assoc, !app_nil_r.
  - rewrite fmap_cons, mjoin_cons, <-app_assoc, glossRun_app.
    rewrite glossRun_isTag by done. rewrite IH by done.
    cbn [gv_defcapture gv_details gv_xrefs gv_err gv_state gv_captured].
    by rewrite (tagDetails_cons t tags), (tagXrefs_cons t tags), !app_assoc.
Qed.

Lemma TrimSpace_tagsThenText tags d :
  plainText d → TrimSpace (tagsThenText tags d) = tagsThenText tags d.
Proof.
  intros [(c & Hh & _ & Hc) (c' & Hl & Hc')].
  apply last_Some in Hl as [d0 Hd0]. unfold tagsThenText.
  destruct tags as [|t tags].
  - destruct d as [|x d1]; simplify_eq/=. by apply (TrimSpace_id _ _ d0 c').
  - rewrite fmap_cons, mjoin_cons. unfold parenthetical at 1.
    rewrite <-!app_comm_cons.
    eapply (TrimSpace_id _ _ _ c'); [|done..].
    rewrite Hd0, !app_comm_cons, !app_assoc. reflexivity.
Qed.

(** X4.  A gloss made of structural tags (parenthesised ordinals,
    cross-references and annotation codes without comma), each followed by a
    space, and then of a plain definition text, parses without error to that
    text, to the annotations of its tags and to the cross-references of its
    tags, both in the order of the tags; the ordinals leave no trace. *)
Theorem parseGloss_tags_then_text tags d :
  Forall isTag tags → plainText d →
  parseGloss (tagsThenText tags d) = (d, tagDetails tags, tagXrefs tags, None).
Proof.
  intros Htags Hd. unfold parseGloss.
  rewrite TrimSpace_tagsThenText by done.
  destruct Hd as [(c & Hh & Hne & _) _].
  by rewrite (glossRun_tags_text glossInit tags d c).
Qed.

Lemma parseGloss_tags_then_text_witness :
  parseGloss (runes "(2) (abbr) (See foo) (uk) rice and curry")
  = (runes "rice and curry", [Abbr; Uk], [runes "foo"], None).
Proof.
  apply (parseGloss_tags_then_text
           [runes "2"; runes "abbr"; runes "See foo"; runes "uk"]
           (runes "rice and curry")).
  - compute_done.
  - split; [exists (rn "r") | exists (rn "y")]; split_and!; done.
Defined.

(** What [TrimSpace] does to a gloss that opens with a parenthesis and ends
    with the last rune of a text that does not end with white space. *)
Lemma TrimSpace_paren s d c' :
  last d = Some c' → IsSpace c' = false →
  TrimSpace (rn "(" :: s ++ d) = rn "(" :: s ++ d.
Proof.
  intros Hl Hc'. apply (TrimSpace_id_last _ _ c'); [done| |done].
  apply last_Some in Hl as [d0 ->].
  by rewrite app_comm_cons, app_assoc, last_snoc.
Qed.

(** Every code of the taxonomy is free of commas and of closing parentheses
    and is classified as an annotation, namely as its own. *)
Lemma DetailString_code A s :
  DetailString !! A = Some s →
  (rn ")" ∉ s) ∧ (rn "," ∉ s)
  ∧ parseIdentifier s = (detail, s) ∧ DetailFor_at s = A.
Proof.
  intros H. apply elem_of_map_to_list in H.
  assert (Forall (λ p : Detail * gostring,
            (rn ")" ∉ p.2) ∧ (rn "," ∉ p.2)
            ∧ parseIdentifier p.2 = (detail, p.2) ∧ DetailFor_at p.2 = p.1)
            (map_to_list DetailString)) as Hall by compute_done.
  rewrite Forall_forall in Hall. apply (Hall (A, s) H).
Qed.

(** The two rounds that classify the captured token. *)
Lemma glossStep_close captured defcapture details xrefs err :
  glossStep (mkGlossVars captureGS captured defcapture details xrefs err) (rn ")")
  = match parseIdentifier captured with
    | (detail, identifier) =>
        mkGlossVars closedGS [] defcapture
          (details ++ [DetailFor_at identifier]) xrefs err
    | (xref, identifier) =>
        mkGlossVars closedGS [] defcapture details (xrefs ++ [identifier]) err
    | (text, _) =>
        mkGlossVars definitionGS []
          (defcapture ++ [rn "("] ++ captured ++ [rn ")"]) details xrefs err
    | (none, _) => mkGlossVars closedGS [] defcapture details xrefs err
    end.
Proof.
  unfold glossStep. rewrite decide_True by done.
  destruct (parseIdentifier captured) as [[] ?]; reflexivity.
Qed.

Lemma glossStep_comma captured defcapture details xrefs err :
  glossStep (mkGlossVars captureGS captured defcapture details xrefs err) (rn ",")
  = if decide ((parseIdentifier captured).1 = detail)
    then mkGlossVars captureGS [] defcapture
           (details ++ [DetailFor_at (parseIdentifier captured).2]) xrefs err
    else mkGlossVars captureGS (captured ++ [rn ","]) defcapture details xrefs err.
Proof.
  unfold glossStep. rewrite decide_False by compute_done.
  rewrite decide_True by done.
  destruct (parseIdentifier captured) as [class identifier]; reflexivity.
Qed.

(** A group of codes separated by commas, read inside a parenthetical up to
    the closing parenthesis. *)
Lemma glossRun_group As codes :
  Forall2 (λ A s, DetailString !! A = Some s) As codes → codes ≠ [] →
  ∀ defcapture details xrefs err,
  glossStep
    (glossRun (mkGlossVars captureGS [] defcapture details xrefs err)
       (Join codes [rn ","])) (rn ")")
  = mkGlossVars closedGS [] defcapture (details ++ As) xrefs err.
Proof.
  induction 1 as [|A s As codes HA HAs IH]; intros Hne defcapture details xrefs err.
  - done.
  - destruct (DetailString_code A s HA) as (Hp & Hcomma & Hclass & Hat).
    destruct codes as [|s' codes].
    + apply Forall2_nil_inv_r in HAs as ->. cbn [Join].
      rewrite glossRun_capture_plain by done.
      cbn [gv_captured gv_defcapture gv_details gv_xrefs gv_err app].
      by rewrite glossStep_close, Hclass, Hat.
    + change (Join (s :: s' :: codes) [rn ","])
        with (s ++ [rn ","] ++ Join (s' :: codes) [rn ","]).
      rewrite glossRun_app, (glossRun_capture_plain _ s) by done.
      cbn [gv_captured gv_defcapture gv_details gv_xrefs gv_err app].
      rewrite glossRun_cons, glossStep_comma, Hclass.
      cbn [fst snd]. rewrite decide_True by done. rewrite Hat.
      rewrite IH by done. by rewrite <-app_assoc.
Qed.

(** X5.  The grouped notation works for the whole taxonomy: a parenthetical
    that lists one or more annotation codes separated by commas, followed by
    a space and a plain definition text, parses without error to exactly the
    annotations of those codes, in order, and to that text. *)
Theorem parseGloss_grouped_codes As codes d :
  Forall2 (λ A s, DetailString !! A = Some s) As codes → codes ≠ [] →
  plainText d →
  parseGloss (rn "(" :: Join codes [rn ","] ++ rn ")" :: rn " " :: d)
  = (d, As, [], None).
Proof.
  intros H Hne [(c & Hh & Hc & _) (c' & Hl & Hc')]. unfold parseGloss.
  assert (last (rn ")" :: rn " " :: d) = Some c') as Hl'
    by (by rewrite !last_cons, Hl).
  rewrite (TrimSpace_paren _ (rn ")" :: rn " " :: d) c') by done.
  rewrite glossRun_cons, glossRun_app, glossRun_cons.
  change (glossStep glossInit (rn "(")) with (mkGlossVars captureGS [] [] [] [] None).
  rewrite (glossRun_group As codes) by done.
  destruct d as [|x d]; [done|]. cbn [head] in Hh. simplify_eq.
  rewrite !glossRun_cons.
  change (glossStep (mkGlossVars closedGS [] [] ([] ++ As) [] None) (rn " "))
    with (mkGlossVars startGS [] [] ([] ++ As) [] None).
  assert (glossStep (mkGlossVars startGS [] [] ([] ++ As) [] None) c
          = mkGlossVars definitionGS [] [c] ([] ++ As) [] None) as ->.
  { unfold glossStep. by rewrite decide_False. }
  by rewrite glossRun_definition_eq.
Qed.

Lemma parseGloss_grouped_codes_witness :
  parseGloss (runes "(adj-na,n,vs) quiet")
  = (runes "quiet", [Adj_na; N; Vs], [], None).
Proof.
  apply (parseGloss_grouped_codes [Adj_na; N; Vs]
           [runes "adj-na"; runes "n"; runes "vs"] (runes "quiet")).
  - repeat constructor.
  - done.
  - split; [exists (rn "q") | exists (rn "t")]; split_and!; done.
Defined.

Lemma HasPrefix_app prefix s : HasPrefix (prefix ++ s) prefix = true.
Proof.
  induction prefix as [|p prefix IH]; [by destruct s|].
  simpl. by rewrite bool_decide_eq_true_2.
Qed.

Lemma TrimPrefix_app prefix s : TrimPrefix (prefix ++ s) prefix = s.
Proof. unfold TrimPrefix. by rewrite HasPrefix_app, drop_app_length. Qed.

(** Whatever follows [See ] is the target of a cross-reference. *)
Lemma parseIdentifier_See w : parseIdentifier (runes "See " ++ w) = (xref, w).
Proof.
  unfold parseIdentifier. rewrite HasPrefix_app, TrimPrefix_app.
  by change (Atoi (runes "See " ++ w)) with (@None Z).
Qed.

(** Inside a parenthetical that began with [See ], commas are captured like
    any other rune. *)
Lemma glossRun_capture_See v w0 w :
  gv_state v = captureGS → gv_captured v = runes "See " ++ w0 → rn ")" ∉ w →
  glossRun v w
  = mkGlossVars captureGS (runes "See " ++ w0 ++ w) (gv_defcapture v)
      (gv_details v) (gv_xrefs v) (gv_err v).
Proof.
  revert v w0. induction w as [|c w IH]; intros v w0 Hs Hc Hp.
  - destruct v; simplify_eq/=. by rewrite app_nil_r.
  - apply not_elem_of_cons in Hp as [Hp1 Hp2]. rewrite glossRun_cons.
    assert (glossStep v c
            = mkGlossVars captureGS (runes "See " ++ (w0 ++ [c])) (gv_defcapture v)
                (gv_details v) (gv_xrefs v) (gv_err v)) as ->.
    { destruct v as [state captured defcapture details xrefs err].
      cbn [gv_state gv_captured gv_defcapture gv_details gv_xrefs gv_err] in *.
      subst. rewrite app_assoc.
      destruct (decide (c = rn ",")) as [->|Hcomma].
      - rewrite glossStep_comma, parseIdentifier_See. by rewrite decide_False.
      - unfold glossStep. by rewrite !decide_False by done. }
    rewrite (IH _ (w0 ++ [c])) by done. simpl. by rewrite <-!app_assoc.
Qed.

(** X6.  A cross-reference target is kept whole, commas included: the
    parenthetical [(See w)], for any [w] without closing parenthesis,
    followed by a space and a plain definition text, parses without error to
    the single cross-reference [w] and to that text. *)
Theorem parseGloss_cross_reference w d :
  rn ")" ∉ w → plainText d →
  parseGloss (rn "(" :: (runes "See " ++ w) ++ rn ")" :: rn " " :: d)
  = (d, [], [w], None).
Proof.
  intros Hp [(c & Hh & Hc & _) (c' & Hl & Hc')]. unfold parseGloss.
  assert (last (rn ")" :: rn " " :: d) = Some c') as Hl'
    by (by rewrite !last_cons, Hl).
  rewrite (TrimSpace_paren _ (rn ")" :: rn " " :: d) c') by done.
  rewrite glossRun_cons, glossRun_app, glossRun_app.
  change (glossStep glossInit (rn "(")) with (mkGlossVars captureGS [] [] [] [] None).
  change (glossRun (mkGlossVars captureGS [] [] [] [] None) (runes "See "))
    with (mkGlossVars captureGS (runes "See " ++ []) [] [] [] None).
  rewrite (glossRun_capture_See _ [] w) by done.
  cbn [gv_defcapture gv_details gv_xrefs gv_err].
  rewrite glossRun_cons, glossStep_close, parseIdentifier_See.
  destruct d as [|x d]; [done|]. cbn [head] in Hh. simplify_eq.
  rewrite !glossRun_cons.
  change (glossStep (mkGlossVars closedGS [] [] [] ([] ++ [[] ++ w]) None) (rn " "))
    with (mkGlossVars startGS [] [] [] ([] ++ [[] ++ w]) None).
  assert (glossStep (mkGlossVars startGS [] [] [] ([] ++ [[] ++ w]) None) c
          = mkGlossVars definitionGS [] [c] [] ([] ++ [[] ++ w]) None) as ->.
  { unfold glossStep. by rewrite decide_False. }
  by rewrite glossRun_definition_eq.
Qed.

Lemma parseGloss_cross_reference_witness :
  parseGloss (runes "(See a,b) teapot") = (runes "teapot", [], [runes "a,b"], None).
Proof.
  apply (parseGloss_cross_reference (runes "a,b") (runes "teapot")).
  - compute_done.
  - split; [exists (rn "t") | exists (rn "t")]; split_and!; done.
Defined.

(** X7.  A gloss that opens with a parenthetical that is no structural tag (a
    token without comma that is neither an integer, nor a cross-reference,
    nor an annotation code) is a definition from its first rune on: it is
    returned whole, parentheses included, whatever follows the parenthetical,
    without annotation, cross-reference or error. *)
Theorem parseGloss_free_text t rest c' :
  rn ")" ∉ t → rn "," ∉ t → (parseIdentifier t).1 = text →
  last (parenthetical t ++ rest) = Some c' → IsSpace c' = false →
  parseGloss (parenthetical t ++ rest) = (parenthetical t ++ rest, [], [], None).
Proof.
  intros Hp Hc Hclass Hl Hc'. unfold parseGloss, parenthetical in *.
  assert (TrimSpace ((rn "(" :: t ++ [rn ")"]) ++ rest)
          = (rn "(" :: t ++ [rn ")"]) ++ rest) as ->.
  { rewrite <-app_comm_cons in *.
    apply (TrimSpace_id_last _ _ c'); [reflexivity | done | done]. }
  rewrite glossRun_app, glossRun_cons, glossRun_snoc.
  change (glossStep glossInit (rn "(")) with (mkGlossVars captureGS [] [] [] [] None).
  rewrite (glossRun_capture_plain _ t) by done.
  cbn [gv_captured gv_defcapture gv_details gv_xrefs gv_err app].
  rewrite glossStep_close.
  destruct (parseIdentifier t) as [class identifier]. cbn [fst] in Hclass. subst.
  by rewrite glossRun_definition_eq.
Qed.

Lemma parseGloss_free_text_witness :
  parseGloss (runes "(esp. formal) (n) (See x) wide vessel")
  = (runes "(esp. formal) (n) (See x) wide vessel", [], [], None).
Proof.
  apply (parseGloss_free_text (runes "esp. formal")
           (runes " (n) (See x) wide vessel") (rn "l")); compute_done.
Defined.

(** ** Splitting on a single rune *)

Lemma HasPrefix_nil s : HasPrefix s [] = true.
Proof. by destruct s. Qed.

Lemma Index_single_cons c x s :
  Index (x :: s) [c] = if decide (x = c) then Some 0%nat else S <$> Index s [c].
Proof.
  rewrite Index_unfold.
  change (HasPrefix (x :: s) [c]) with (bool_decide (x = c) && HasPrefix s []).
  rewrite HasPrefix_nil, andb_true_r.
  destruct (decide (x = c));
    [rewrite bool_decide_eq_true_2 by done | rewrite bool_decide_eq_false_2 by done];
    reflexivity.
Qed.

Lemma Index_single_None c s : c ∉ s → Index s [c] = None.
Proof.
  induction s as [|x s IH]; [done|]. intros H.
  apply not_elem_of_cons in H as [H1 H2].
  rewrite Index_single_cons, decide_False by done. by rewrite IH.
Qed.

Lemma Index_single_Some c a b :
  c ∉ a → Index (a ++ c :: b) [c] = Some (length a).
Proof.
  induction a as [|x a IH]; intros H.
  - simpl app. by rewrite Index_single_cons, decide_True.
  - apply not_elem_of_cons in H as [H1 H2]. rewrite <-app_comm_cons.
    rewrite Index_single_cons, decide_False by done. by rewrite IH.
Qed.

Lemma fields_None c s : c ∉ s → fields c s = [s].
Proof.
  induction s as [|x s IH]; [done|]. intros H.
  apply not_elem_of_cons in H as [H1 H2]. simpl.
  rewrite decide_False by done. by rewrite IH.
Qed.

Lemma fields_Some c a b : c ∉ a → fields c (a ++ c :: b) = a :: fields c b.
Proof.
  induction a as [|x a IH]; intros H.
  - simpl. by rewrite decide_True.
  - apply not_elem_of_cons in H as [H1 H2]. simpl.
    rewrite decide_False by done. by rewrite IH.
Qed.

Lemma drop_after_single (c : Z) a b :
  drop (length a + length [c]) (a ++ c :: b) = b.
Proof.
  rewrite (assoc_L (++) a [c] b : a ++ c :: b = (a ++ [c]) ++ b).
  apply drop_app_length'. by rewrite length_app.
Qed.

Lemma filter_absent (c : Z) s : c ∉ s → filter (λ x, x = c) s = [].
Proof.
  induction s as [|x s IH]; [done|]. intros H.
  apply not_elem_of_cons in H as [H1 H2].
  rewrite filter_cons_False by (by intros ->). by apply IH.
Qed.

Lemma Count_loop_single c fuel s :
  (length s ≤ fuel)%nat →
  Count_loop fuel s [c] = length (filter (λ x, x = c) s).
Proof.
  revert s. induction fuel as [|fuel IH]; intros s Hf.
  - by destruct s; [|simpl in Hf; lia].
  - cbn [Count_loop]. destruct (decide (c ∈ s)) as [Hin|Hin].
    + apply list_elem_of_split_l in Hin as (a & b & -> & Ha).
      rewrite Index_single_Some by done.
      rewrite drop_after_single.
      rewrite filter_app, filter_cons_True, length_app by done.
      rewrite (filter_absent c a) by done.
      rewrite IH; [done|]. rewrite length_app in Hf. simpl in Hf. lia.
    + rewrite Index_single_None by done.
      by rewrite (filter_absent c s).
Qed.

Lemma genSplit_loop_single c n s :
  (length (filter (λ x, x = c) s) ≤ n)%nat → genSplit_loop n s [c] = fields c s.
Proof.
  revert s. induction n as [|n IH]; intros s Hn.
  - cbn [genSplit_loop]. rewrite fields_None; [done|].
    intros Hin. apply list_elem_of_split in Hin as (a & b & ->).
    rewrite filter_app, filter_cons_True, length_app in Hn by done.
    simpl in Hn. lia.
  - cbn [genSplit_loop]. destruct (decide (c ∈ s)) as [Hin|Hin].
    + apply list_elem_of_split_l in Hin as (a & b & -> & Ha).
      rewrite Index_single_Some, fields_Some by done.
      rewrite take_app_length, drop_after_single.
      rewrite IH; [done|].
      rewrite filter_app, filter_cons_True, length_app in Hn by done.
      simpl in Hn. lia.
    + by rewrite Index_single_None, fields_None.
Qed.

(** For a separator of one rune, [Split] cuts at every occurrence. *)
Lemma Split_fields c s : Split s [c] = fields c s.
Proof.
  unfold Split, Count. rewrite !decide_False by done.
  apply genSplit_loop_single. by rewrite Count_loop_single.
Qed.

Lemma fields_nonempty c s : fields c s ≠ [].
Proof.
  induction s as [|x s IH]; [done|]. simpl.
  destruct (decide (x = c)); [done|]. by destruct (fields c s).
Qed.

(** The pieces when a rune is added at the end. *)
Lemma fields_snoc c s x :
  ∃ fs l, fields c s = fs ++ [l]
    ∧ fields c (s ++ [x])
      = if decide (x = c) then fs ++ [l; []] else fs ++ [l ++ [x]].
Proof.
  induction s as [|y s (fs & l & Hs & Hsx)].
  - exists [], []. split; [done|]. simpl. by destruct (decide (x = c)).
  - simpl. destruct (decide (y = c)).
    + exists ([] :: fs), l. rewrite Hs, Hsx. split; [done|].
      by destruct (decide (x = c)).
    + rewrite Hs, Hsx. destruct fs as [|f fs].
      * exists [], (y :: l). split; [done|]. by destruct (decide (x = c)).
      * exists ((y :: f) :: fs), l. split; [done|]. by destruct (decide (x = c)).
Qed.

(** No piece holds the separator, and joining the pieces with the separator
    gives the string back. *)
Lemma fields_spec c s :
  Forall (λ f, c ∉ f) (fields c s) ∧ Join (fields c s) [c] = s.
Proof.
  induction s as [|x s [IH1 IH2]].
  - split; [|done]. repeat constructor. apply not_elem_of_nil.
  - simpl. destruct (decide (x = c)) as [->|Hx].
    + split; [constructor; [apply not_elem_of_nil | done]|].
      pose proof (fields_nonempty c s). cbn [Join].
      destruct (fields c s); [done|]. by rewrite IH2.
    + pose proof (fields_nonempty c s).
      destruct (fields c s) as [|f fs]; [done|].
      apply Forall_cons in IH1 as [Hf Hfs]. split.
      * constructor; [|done]. by apply not_elem_of_cons.
      * cbn [Join] in *. destruct fs; simplify_eq/=; done.
Qed.

(** ** The key normaliser *)

Lemma fixKey_split key :
  ∃ k rest, fixKey key = Done k ∧ key = k ++ rest ∧ (rn "(" ∉ k)
    ∧ (rest = [] ∨ head rest = Some (rn "(")).
Proof.
  unfold fixKey, ContainsRune.
  destruct (decide (rn "(" ∈ key)) as [Hin|Hin].
  - rewrite bool_decide_eq_true_2 by done.
    apply list_elem_of_split_l in Hin as (a & b & -> & Ha).
    change (runes "(") with [rn "("]. rewrite Split_fields, fields_Some by done.
    exists a, (rn "(" :: b). split_and!; [done..|by right].
  - rewrite bool_decide_eq_false_2 by done.
    exists key, []. by rewrite app_nil_r; split_and!; [..|left].
Qed.

Lemma fixKey_clean k : rn "(" ∉ k → fixKey k = Done k.
Proof. intros H. unfold fixKey, ContainsRune. by rewrite bool_decide_eq_false_2. Qed.

(** X8.  [fixKey] never panics.  It returns the longest prefix of the key
    that holds no opening parenthesis: the key is the result followed by
    nothing or by a text that starts with an opening parenthesis.  A key
    without parenthesis is returned unchanged, and normalising twice is the
    same as normalising once. *)
Theorem fixKey_longest_prefix key :
  ∃ k rest, fixKey key = Done k ∧ key = k ++ rest ∧ (rn "(" ∉ k)
    ∧ (rest = [] ∨ head rest = Some (rn "("))
    ∧ (rn "(" ∉ key → k = key)
    ∧ fixKey k = Done k.
Proof.
  destruct (fixKey_split key) as (k & rest & Hk & -> & Hn & Hrest).
  exists k, rest. split_and!; [done..| |by apply fixKey_clean].
  intros Hnot. destruct Hrest as [->|Hh]; [by rewrite app_nil_r|].
  destruct rest as [|x rest]; simplify_eq/=. set_solver.
Qed.

Lemma fixKeys_Forall2 keys :
  ∃ ks, fixKeys keys = Done ks ∧ Forall2 (λ key k, fixKey key = Done k) keys ks.
Proof.
  induction keys as [|key keys (ks & Hks & Hall)].
  - by exists [].
  - destruct (fixKey_split key) as (k & rest & Hk & _).
    exists (k :: ks). cbn [fixKeys]. rewrite Hk. simpl. rewrite Hks. simpl.
    split; [done|]. by constructor.
Qed.

(** ** More on the key-field parser *)

Lemma keyRun_app v s1 s2 : keyRun v (s1 ++ s2) = keyRun (keyRun v s1) s2.
Proof. unfold keyRun. by rewrite foldl_app. Qed.

Lemma keyRun_kanji_token kanji kana capture t :
  Forall (λ c, c ≠ rn ";" ∧ IsSpace c = false) t →
  keyRun (mkKeyVars kanji kana capture kanjiKS) t
  = mkKeyVars kanji kana (capture ++ t) kanjiKS.
Proof.
  intros Ht. revert capture. induction Ht as [|c t [Hc1 Hc2] _ IH]; intros capture.
  - by rewrite app_nil_r.
  - rewrite keyRun_cons, keyStep_kanjiKS.
    rewrite decide_False by done.
    rewrite decide_False by (intros ->; by vm_compute in Hc2).
    by rewrite IH, <-app_assoc.
Qed.

Lemma keyRun_kana_token kanji kana capture t :
  kanaToken t →
  keyRun (mkKeyVars kanji kana capture kanaKS) t
  = mkKeyVars kanji kana (capture ++ t) kanaKS.
Proof.
  intros [H1 H2]. revert capture. induction t as [|c t IH]; intros capture.
  - by rewrite app_nil_r.
  - apply not_elem_of_cons in H1 as [H1 H1'].
    apply not_elem_of_cons in H2 as [H2 H2'].
    rewrite keyRun_cons, keyStep_kanaKS, !decide_False by done.
    by rewrite IH, <-app_assoc.
Qed.

Lemma Join_cons_cons e e' es sep :
  Join (e :: e' :: es) sep = e ++ sep ++ Join (e' :: es) sep.
Proof. done. Qed.

Lemma keyRun_kanji_list kanji0 kana tokens t :
  Forall kanjiToken (tokens ++ [t]) →
  keyRun (mkKeyVars kanji0 kana [] kanjiKS) (Join (tokens ++ [t]) [rn ";"])
  = mkKeyVars (kanji0 ++ tokens) kana t kanjiKS.
Proof.
  revert kanji0. induction tokens as [|t0 tokens IH]; intros kanji0 H.
  - apply Forall_singleton in H as [_ H]. simpl.
    by rewrite keyRun_kanji_token, app_nil_r.
  - apply Forall_cons in H as [[_ Ht0] H]. rewrite <-app_comm_cons.
    destruct (tokens ++ [t]) as [|t1 ts] eqn:E; [by destruct tokens|].
    rewrite Join_cons_cons, keyRun_app, keyRun_kanji_token by done.
    change ([rn ";"] ++ Join (t1 :: ts) [rn ";"]) with (rn ";" :: Join (t1 :: ts) [rn ";"]).
    rewrite keyRun_cons, keyStep_kanjiKS, decide_True by done.
    rewrite IH by (by rewrite <-E). simpl. by rewrite <-app_assoc.
Qed.

Lemma keyRun_kana_list kanji kana0 tokens t :
  Forall kanaToken (tokens ++ [t]) →
  keyRun (mkKeyVars kanji kana0 [] kanaKS) (Join (tokens ++ [t]) [rn ";"])
  = mkKeyVars kanji (kana0 ++ tokens) t kanaKS.
Proof.
  revert kana0. induction tokens as [|t0 tokens IH]; intros kana0 H.
  - simpl in H. rewrite Forall_singleton in H. simpl.
    by rewrite keyRun_kana_token, app_nil_r.
  - apply Forall_cons in H as [Ht0 H]. rewrite <-app_comm_cons.
    destruct (tokens ++ [t]) as [|t1 ts] eqn:E; [by destruct tokens|].
    rewrite Join_cons_cons, keyRun_app, keyRun_kana_token by done.
    change ([rn ";"] ++ Join (t1 :: ts) [rn ";"]) with (rn ";" :: Join (t1 :: ts) [rn ";"]).
    rewrite keyRun_cons, keyStep_kanaKS, decide_True by done.
    rewrite IH by (by rewrite <-E). simpl. by rewrite <-app_assoc.
Qed.

(** The joined primary forms are not empty and hold no white space. *)
Lemma Join_kanji_nonspace tokens :
  tokens ≠ [] → Forall kanjiToken tokens →
  Join tokens [rn ";"] ≠ []
  ∧ Forall (λ c, IsSpace c = false) (Join tokens [rn ";"]).
Proof.
  intros Hne H. induction H as [|t tokens [Ht1 Ht2] Hts IH]; [done|].
  assert (Forall (λ c, IsSpace c = false) t) as Ht3
    by (eapply Forall_impl; [done | by intros ? []]).
  destruct tokens as [|t' tokens]; [by split|].
  rewrite Join_cons_cons. destruct IH as [_ IH]; [done|]. split.
  - by destruct t.
  - rewrite !Forall_app. split_and!; [done| |done]. by repeat constructor.
Qed.

Lemma TrimSpace_nonspace s :
  Forall (λ c, IsSpace c = false) s → TrimSpace s = s.
Proof.
  intros H. destruct s as [|c s]; [done|].
  destruct (last_is_Some (c :: s)) as [_ [c' Hl]]; [done|].
  apply (TrimSpace_id_last _ _ c'); [by apply Forall_cons in H as [? _] | done |].
  rewrite Forall_forall in H. apply H. by apply last_Some_elem_of.
Qed.

(** X9.  [parseKey] reads back what the key grammar writes: for well-formed
    primary forms, joined by semicolons, it returns exactly those forms and
    no pronunciation; followed by a space and by well-formed pronunciations
    between brackets, joined by semicolons, it returns exactly the two
    lists; in both cases without error. *)
Theorem parseKey_round_trip kanji kana :
  kanji ≠ [] → Forall kanjiToken kanji → Forall kanaToken kana →
  parseKey (Join kanji [rn ";"]) = (kanji, [], None)
  ∧ (kana ≠ [] →
     parseKey (Join kanji [rn ";"] ++ runes " [" ++ Join kana [rn ";"] ++ runes "]")
     = (kanji, kana, None)).
Proof.
  intros Hne Hkanji Hkana.
  destruct (Join_kanji_nonspace kanji Hne Hkanji) as [HJ1 HJ2].
  destruct kanji as [|k0 kanji _] using rev_ind; [done|]. split.
  - unfold parseKey. rewrite TrimSpace_nonspace by done.
    unfold keyInit. rewrite keyRun_kanji_list by done. reflexivity.
  - intros Hne'. destruct kana as [|a0 kana _] using rev_ind; [done|].
    unfold parseKey.
    assert (TrimSpace (Join (kanji ++ [k0]) [rn ";"] ++ runes " ["
                       ++ Join (kana ++ [a0]) [rn ";"] ++ runes "]")
            = Join (kanji ++ [k0]) [rn ";"] ++ runes " ["
              ++ Join (kana ++ [a0]) [rn ";"] ++ runes "]") as ->.
    { destruct (Join (kanji ++ [k0]) [rn ";"]) as [|c J] eqn:EJ; [done|].
      apply Forall_cons in HJ2 as [Hc _]. rewrite <-app_comm_cons.
      eapply (TrimSpace_id _ _ _ (rn "]")); [|done..].
      change (runes "]") with [rn "]"]. rewrite app_comm_cons, !app_assoc.
      reflexivity. }
    unfold keyInit. rewrite keyRun_app, keyRun_kanji_list by done.
    change (runes " [" ++ Join (kana ++ [a0]) [rn ";"] ++ runes "]")
      with (rn " " :: rn "[" :: Join (kana ++ [a0]) [rn ";"] ++ [rn "]"]).
    rewrite !keyRun_cons, keyStep_kanjiKS.
    rewrite decide_False, decide_True by done.
    rewrite keyStep_spaceKS.
    rewrite !decide_False by done. rewrite decide_True by done.
    rewrite keyRun_app, keyRun_kana_list by done.
    rewrite keyRun_cons, keyStep_kanaKS.
    rewrite decide_False, decide_True by done. reflexivity.
Qed.

Lemma parseKey_round_trip_witness :
  parseKey (runes "A;B") = ([runes "A"; runes "B"], [], None)
  ∧ parseKey (runes "A;B [x y;z]")
    = ([runes "A"; runes "B"], [runes "x y"; runes "z"], None).
Proof.
  destruct (parseKey_round_trip [runes "A"; runes "B"] [runes "x y"; runes "z"])
    as [H1 H2].
  - done.
  - repeat constructor; done.
  - repeat constructor; compute_done.
  - split; [exact H1 | by apply H2].
Defined.

(** ** More on the line assembler *)

Lemma HasPrefix_true s prefix :
  HasPrefix s prefix = true → s = prefix ++ drop (length prefix) s.
Proof.
  revert s. induction prefix as [|p prefix IH]; intros [|c s]; simpl; try done.
  intros H. apply andb_prop in H as [Hc H].
  apply bool_decide_eq_true in Hc as ->. f_equal. by apply IH.
Qed.

(** Stripping a suffix that is there and putting it back. *)
Lemma TrimSuffix_app s suffix :
  HasSuffix s suffix = true → TrimSuffix s suffix ++ suffix = s.
Proof.
  intros H. unfold TrimSuffix. rewrite H. unfold HasSuffix in H.
  apply HasPrefix_true in H. apply (f_equal reverse) in H.
  rewrite reverse_involutive, reverse_app, reverse_involutive in H.
  rewrite length_reverse in H.
  rewrite H at 2. rewrite H at 1. rewrite length_app.
  replace (length (reverse (drop (length suffix) (reverse s))) + length suffix
           - length suffix)%nat
    with (length (reverse (drop (length suffix) (reverse s)))) by lia.
  by rewrite take_app_length.
Qed.

Lemma sameHead_refl r : sameHead r r.
Proof. done. Qed.

Lemma sameHead_trans r1 r2 r3 : sameHead r1 r2 → sameHead r2 r3 → sameHead r1 r3.
Proof. unfold sameHead. intros (-> & -> & -> & ->) (-> & -> & -> & ->). done. Qed.

Lemma entryDetails_sameHead result parts glosses r glosses' err :
  entryDetails result parts glosses = Done (r, glosses', err) → sameHead result r.
Proof.
  unfold entryDetails. intros H.
  destruct (decide (4 < len parts)); [|by simplify_eq].
  apply go_bind_Done in H as (p1 & _ & H).
  destruct (decide (len (Split p1 (runes "(1)")) = 2)); [|by simplify_eq].
  apply go_bind_Done in H as (f0 & _ & H).
  destruct (parseGloss _) as [[[def details] xrefs] [e0|]]; [by simplify_eq|].
  destruct (decide (len xrefs ≠ 0)); [by simplify_eq|].
  apply go_bind_Done in H as (f1 & _ & H). by simplify_eq.
Qed.

Lemma glossLoop_sameHead result glosses r err :
  glossLoop result glosses = (r, err) → sameHead result r.
Proof.
  revert result. induction glosses as [|gloss glosses IH]; intros result H;
    simpl in H; [by simplify_eq|].
  destruct (decide (gloss = runes "(P)")).
  - apply IH in H. by destruct H as (? & ? & ? & ?).
  - destruct (parseGloss gloss) as [[[def details] xrefs] [e0|]]; [by simplify_eq|].
    apply IH in H. by destruct H as (? & ? & ? & ?).
Qed.

Lemma singleGloss_sameHead result parts r :
  singleGloss result parts = Done r → sameHead result r.
Proof.
  unfold singleGloss. intros H.
  destruct (decide (len parts ≤ 4)); [|by simplify_eq].
  apply go_bind_Done in H as (g0 & _ & H).
  apply go_bind_Done in H as (g1 & _ & H). by simplify_eq.
Qed.

(** The keys, the sequence identifier and the recording flag of an accepted
    line, read off the blocks of [parseLine]. *)
Lemma parseLine_accepted_head line e :
  parseLine line = Done (e, None) →
  let parts := Split line (runes "/") in
  ∃ seq p0 kanji kana,
    last parts = Some []
    ∧ 2 ≤ len parts ∧ parts !! Z.to_nat (len parts - 2) = Some seq
    ∧ parts !! 0%nat = Some p0 ∧ parseKey p0 = (kanji, kana, None)
    ∧ fixKeys kanji = Done (Entry_Kanji e) ∧ fixKeys kana = Done (Entry_Kana e)
    ∧ Entry_RecordingAvailable e = HasSuffix seq (runes "X")
    ∧ Entry_Sequence e
      = (if HasSuffix seq (runes "X") then TrimSuffix seq (runes "X") else seq).
Proof.
  intros H parts. unfold parseLine in H. fold parts in H.
  apply go_bind_Done in H as (lst & Hlast & H).
  destruct (decide (lst ≠ [])) as [|Hnil]; [done|].
  assert (lst = []) as -> by (destruct lst; [done | by destruct Hnil]).
  apply go_bind_Done in H as (r1 & Hseq & H).
  apply go_bind_Done in H as (p0 & Hp0 & H).
  destruct (parseKey p0) as [[kanji kana] [err|]] eqn:Hkey; [done|].
  apply go_bind_Done in H as (p1 & Hp1 & H).
  apply go_bind_Done in H as ([[r2 glosses0] [err|]] & Hdet & H); [done|].
  apply go_bind_Done in H as (glosses & Hrest & H).
  destruct (glossLoop (set_Gloss r2 []) glosses) as [r3 [err|]] eqn:Hloop; [done|].
  apply go_bind_Done in H as (r4 & Hsingle & H).
  apply go_bind_Done in H as (kanji' & Hkanji & H).
  apply go_bind_Done in H as (kana' & Hkana & H).
  apply entryDetails_sameHead in Hdet. apply glossLoop_sameHead in Hloop.
  apply singleGloss_sameHead in Hsingle.
  assert (sameHead (set_Keys r1 kanji kana) r4) as (Hk1 & Hk2 & Hs & Hr).
  { eapply sameHead_trans; [|done]. eapply sameHead_trans; [done|].
    eapply sameHead_trans; [|done]. done. }
  simpl in Hk1, Hk2, Hs, Hr. rewrite Hk1 in Hkanji. rewrite Hk2 in Hkana.
  unfold sequenceOf in Hseq. apply go_bind_Done in Hseq as (seq & Hseq & Hr1).
  apply index_Done in Hseq as [Hge Hseq]. apply index_Done in Hp0 as [_ Hp0].
  apply index_Done in Hlast as [_ Hlast].
  exists seq, p0, kanji, kana. simplify_eq/=.
  split_and!; try done.
  - rewrite last_lookup. rewrite <-Hlast. f_equal. unfold len. lia.
  - lia.
  - rewrite Hr. by destruct (HasSuffix seq (runes "X")); simplify_eq/=.
  - rewrite Hs. by destruct (HasSuffix seq (runes "X")); simplify_eq/=.
Qed.

Lemma fixKey_Forall2_keeps (P : gostring → Prop) keys ks :
  (∀ k rest, P (k ++ rest) → P k) →
  Forall2 (λ key k, fixKey key = Done k) keys ks → Forall P keys →
  Forall (λ k, (rn "(" ∉ k) ∧ P k) ks.
Proof.
  intros HP. induction 1 as [|key k keys ks Hk _ IH]; intros HPs; [done|].
  apply Forall_cons in HPs as [HPk HPs]. constructor; [|by apply IH].
  destruct (fixKey_split key) as (k' & rest & Hk' & -> & Hn & _).
  rewrite Hk in Hk'. simplify_eq. split; [done|]. by apply (HP k' rest).
Qed.

(** X10.  The keys of an accepted line are the primary forms and the
    pronunciations of its key field, each cut before its first opening
    parenthesis, in order and one for one.  So there is at least one primary
    form, no key holds an opening parenthesis or a semicolon, and no primary
    form holds a space. *)
Theorem parseLine_keys line e :
  parseLine line = Done (e, None) →
  (∃ p0 kanji kana,
     Split line (runes "/") !! 0%nat = Some p0
     ∧ parseKey p0 = (kanji, kana, None)
     ∧ Forall2 (λ key k, fixKey key = Done k) kanji (Entry_Kanji e)
     ∧ Forall2 (λ key k, fixKey key = Done k) kana (Entry_Kana e))
  ∧ Entry_Kanji e ≠ []
  ∧ Forall (λ k, (rn "(" ∉ k) ∧ (rn ";" ∉ k) ∧ (rn " " ∉ k)) (Entry_Kanji e)
  ∧ Forall (λ k, (rn "(" ∉ k) ∧ (rn ";" ∉ k)) (Entry_Kana e).
Proof.
  intros H.
  destruct (parseLine_accepted_head line e H)
    as (seq & p0 & kanji & kana & _ & _ & _ & Hp0 & Hkey & Hkanji & Hkana & _).
  destruct (fixKeys_Forall2 kanji) as (ks & Hks & Hall).
  destruct (fixKeys_Forall2 kana) as (as' & Has & Hall').
  rewrite Hkanji in Hks. rewrite Hkana in Has. simplify_eq.
  pose proof (parseKey_lists p0) as Hl. rewrite Hkey in Hl. simpl in Hl.
  destruct (keyInv_flush (keyRun keyInit (TrimSpace p0)))
    as [(Hi1 & Hi2 & _ & _ & Hne) Hst]; [apply keyInv_run, keyInv_init|].
  inversion Hl; subst; clear Hl. specialize (Hne Hst).
  split_and!.
  - by eexists p0, _, _.
  - intros Hnil. rewrite Hnil in Hall. apply Forall2_nil_inv_r in Hall. done.
  - eapply Forall_impl;
      [apply (fixKey_Forall2_keeps (λ k, (rn ";" ∉ k) ∧ (rn " " ∉ k)) _ _
                ltac:(set_solver) Hall Hi1)|].
    naive_solver.
  - apply (fixKey_Forall2_keeps (λ k, rn ";" ∉ k) _ _ ltac:(set_solver) Hall' Hi2).
Qed.

Lemma parseLine_keys_witness :
  [runes "k"; runes "J"] ≠ []
  ∧ Forall (λ k, (rn "(" ∉ k) ∧ (rn ";" ∉ k) ∧ (rn " " ∉ k)) [runes "k"; runes "J"]
  ∧ Forall (λ k, (rn "(" ∉ k) ∧ (rn ";" ∉ k)) [runes "ka"; runes "kari"].
Proof.
  apply (proj2 (parseLine_keys
                  (runes "k(ateji);J [ka(P);kari] /(n) curry/(P)/7X/")
                  (mkEntry [runes "k"; runes "J"] [runes "ka"; runes "kari"] [Common]
                     [mkGloss (runes "curry") [N] []] (runes "7") true)
                  ltac:(by vm_compute))).
Defined.

(** X11.  The sequence identifier and the recording flag of an accepted line
    hold exactly the second-to-last field: the field is the identifier,
    followed by the marker [X] when the flag is set, and it does not end with
    the marker when the flag is not set.  The last field of an accepted line
    is empty. *)
Theorem parseLine_sequence line e :
  parseLine line = Done (e, None) →
  let parts := Split line (runes "/") in
  last parts = Some []
  ∧ ∃ seq, parts !! Z.to_nat (len parts - 2) = Some seq
      ∧ seq = Entry_Sequence e
              ++ (if Entry_RecordingAvailable e then runes "X" else [])
      ∧ (Entry_RecordingAvailable e = false → HasSuffix seq (runes "X") = false).
Proof.
  intros H parts.
  destruct (parseLine_accepted_head line e H)
    as (seq & p0 & kanji & kana & Hlast & _ & Hseq & _ & _ & _ & _ & Hr & Hs).
  split; [done|]. exists seq. split; [done|]. rewrite Hr, Hs.
  destruct (HasSuffix seq (runes "X")) eqn:Hx.
  - split; [|done]. by rewrite TrimSuffix_app.
  - by rewrite app_nil_r.
Qed.

Lemma parseLine_sequence_witness :
  last (Split (runes "k [ka] /(n) curry/EntL1039140X/") (runes "/")) = Some []
  ∧ ∃ seq,
      Split (runes "k [ka] /(n) curry/EntL1039140X/") (runes "/") !! 2%nat = Some seq
      ∧ seq = runes "EntL1039140" ++ runes "X"
      ∧ (true = false → HasSuffix seq (runes "X") = false).
Proof.
  apply (parseLine_sequence (runes "k [ka] /(n) curry/EntL1039140X/")
           (mkEntry [runes "k"] [runes "ka"] [N]
              [mkGloss (runes "curry") [] []] (runes "EntL1039140") true)).
  by vm_compute.
Defined.

Lemma Join_snoc_suffix fs l sep : ∃ pre, Join (fs ++ [l]) sep = pre ++ l.
Proof.
  induction fs as [|f fs [pre IH]]; [by exists []|].
  rewrite <-app_comm_cons.
  destruct (fs ++ [l]) as [|f' fs'] eqn:E; [by destruct fs|].
  rewrite Join_cons_cons, IH. exists (f ++ sep ++ pre). by rewrite <-!app_assoc.
Qed.

(** A line that does not end with the separator fails on its last piece. *)
Lemma parseLine_unterminated s x :
  x ≠ rn "/" →
  ∃ pre l, s ++ [x] = pre ++ l ∧ last l = Some x ∧ (rn "/" ∉ l)
    ∧ parseLine (s ++ [x]) = Done (Entry_zero, Some (ErrLastNotBlank l)).
Proof.
  intros Hx. destruct (fields_snoc (rn "/") s x) as (fs & l0 & Hs & Hsx).
  rewrite decide_False in Hsx by done.
  destruct (fields_spec (rn "/") (s ++ [x])) as [Hall HJ].
  rewrite Hsx in Hall, HJ.
  destruct (Join_snoc_suffix fs (l0 ++ [x]) [rn "/"]) as [pre Hpre].
  exists pre, (l0 ++ [x]). split_and!.
  - by rewrite <-HJ.
  - by rewrite last_snoc.
  - apply Forall_app in Hall as [_ Hall]. by rewrite Forall_singleton in Hall.
  - unfold parseLine. change (runes "/") with [rn "/"].
    rewrite Split_fields, Hsx.
    rewrite index_last with (x := l0 ++ [x]) by (by rewrite last_snoc).
    simpl. rewrite decide_True by (by destruct l0). done.
Qed.

(** X12.  A line whose last rune is not the separator [/] is never accepted
    and never panics: [parseLine] returns the failure about the last
    component, which is what follows the last separator of the line (the
    whole line when it has none), and it has filled in nothing of the record.
    Hence every accepted line ends with the separator. *)
Theorem parseLine_trailing_separator :
  (∀ s x, x ≠ rn "/" →
     ∃ pre l, s ++ [x] = pre ++ l ∧ last l = Some x ∧ (rn "/" ∉ l)
       ∧ parseLine (s ++ [x]) = Done (Entry_zero, Some (ErrLastNotBlank l)))
  ∧ (∀ line e, parseLine line = Done (e, None) → last line = Some (rn "/")).
Proof.
  split; [apply parseLine_unterminated|].
  intros line e H. destruct line as [|c line _] using rev_ind; [done|].
  rewrite last_snoc. f_equal.
  destruct (decide (c = rn "/")) as [|Hc]; [done|].
  destruct (parseLine_unterminated line c Hc) as (_ & l & _ & _ & _ & Hl).
  rewrite Hl in H. done.
Qed.

Lemma parseLine_trailing_separator_witness :
  (∃ pre l, runes "A /foo/12" ++ [rn "3"] = pre ++ l ∧ last l = Some (rn "3")
     ∧ (rn "/" ∉ l)
     ∧ parseLine (runes "A /foo/12" ++ [rn "3"])
       = Done (Entry_zero, Some (ErrLastNotBlank l)))
  ∧ last (runes "A /foo/123/") = Some (rn "/").
Proof.
  split.
  - apply (proj1 parseLine_trailing_separator). discriminate.
  - apply (proj2 parseLine_trailing_separator (runes "A /foo/123/")
             (mkEntry [runes "A"] [] [] [mkGloss (runes "foo") [] []]
                (runes "123") false)).
    by vm_compute.
Defined.

Lemma go_bind_Panic {A B} (m : go A) (k : A → go B) :
  m ≫= k = Panic → m = Panic ∨ ∃ a, m = Done a ∧ k a = Panic.
Proof. destruct m as [a|]; [|by left]. intros H. right. by exists a. Qed.

Lemma index_Panic {A} (l : list A) i :
  index l i = Panic ↔ i < 0 ∨ len l ≤ i.
Proof.
  unfold index, len. destruct (decide (0 ≤ i)) as [Hi|Hi]; [|split; [lia|done]].
  destruct (l !! Z.to_nat i) as [a|] eqn:E.
  - apply lookup_lt_Some in E. split; [done|lia].
  - apply lookup_ge_None in E. split; [lia|done].
Qed.

(** The blocks of [parseLine] that cannot panic. *)
Lemma entryDetails_total result parts p1 glosses :
  parts !! 1%nat = Some p1 →
  ∃ r, entryDetails result parts glosses = Done r.
Proof.
  intros Hp1. unfold entryDetails.
  destruct (decide (4 < len parts)); [|by eexists].
  assert (index parts 1 = Done p1) as -> by (by apply index_Done). simpl.
  destruct (decide (len (Split p1 (runes "(1)")) = 2)) as [H2|]; [|by eexists].
  destruct (Split p1 (runes "(1)")) as [|f0 [|f1 [|]]];
    try (unfold len in H2; simpl in H2; lia).
  unfold index; simpl.
  destruct (parseGloss (f0 ++ runes "fake definition"))
    as [[[def details] xrefs] [e|]]; [by eexists|].
  destruct (decide (len xrefs ≠ 0)); by eexists.
Qed.

Lemma restGlosses_total parts glosses :
  ∃ gs, restGlosses parts glosses = Done gs.
Proof.
  unfold restGlosses, slice. destruct (decide (4 < len parts)); [|by eexists].
  rewrite decide_True by lia. by eexists.
Qed.

(** With at most four parts and a key field that parses, a definition field
    that is exactly [(P)] makes [parseLine] panic. *)
Lemma parseLine_P_only line p0 kanji kana :
  let parts := Split line (runes "/") in
  len parts ≤ 4 → last parts = Some [] →
  parts !! 0%nat = Some p0 → parseKey p0 = (kanji, kana, None) →
  parts !! 1%nat = Some (runes "(P)") →
  parseLine line = Panic.
Proof.
  intros parts Hlen Hlast Hp0 Hkey Hp1.
  unfold parseLine. fold parts.
  rewrite (index_last _ _ Hlast). simpl.
  assert (∃ seq, index parts (len parts - 2) = Done seq) as [seq Hseq].
  { assert (1 < length parts)%nat by (by apply lookup_lt_Some in Hp1).
    destruct (lookup_lt_is_Some_2 parts (Z.to_nat (len parts - 2))) as [seq Hs].
    - unfold len. lia.
    - exists seq. apply index_Done. unfold len in *. split; [lia|done]. }
  assert (index parts 0 = Done p0) as -> by (by apply index_Done).
  assert (index parts 1 = Done (runes "(P)")) as -> by (by apply index_Done).
  unfold sequenceOf. rewrite Hseq. simpl.
  unfold entryDetails, restGlosses, singleGloss.
  destruct (HasSuffix seq (runes "X")); simpl; rewrite Hkey; simpl;
    repeat (rewrite (decide_False (P := 4 < len parts)) by lia; simpl);
    by rewrite (decide_True (P := len parts ≤ 4)).
Qed.

Lemma glossLoop_single_empty result p1 r :
  Entry_Gloss result = [] → glossLoop result [p1] = (r, None) →
  Entry_Gloss r = [] → p1 = runes "(P)".
Proof.
  intros Hg H Hr. simpl in H.
  destruct (decide (p1 = runes "(P)")); [done|].
  destruct (parseGloss p1) as [[[def details] xrefs] [e|]]; [done|].
  simplify_eq/=. rewrite Hg in Hr. done.
Qed.

(** X13.  [parseLine] panics in two situations and in no other: on the empty
    line, and on a line of at most four parts that ends with the separator
    and whose key field parses, when its definition field is exactly [(P)]. *)
Theorem parseLine_panic_iff line :
  parseLine line = Panic
  ↔ line = []
    ∨ (let parts := Split line (runes "/") in
       len parts ≤ 4 ∧ last parts = Some []
       ∧ parts !! 1%nat = Some (runes "(P)")
       ∧ ∃ p0 kanji kana,
           parts !! 0%nat = Some p0 ∧ parseKey p0 = (kanji, kana, None)).
Proof.
  split.
  2: { intros [->|(Hlen & Hlast & Hp1 & p0 & kanji & kana & Hp0 & Hkey)]; [done|].
       by apply (parseLine_P_only line p0 kanji kana). }
  intros H. set (parts := Split line (runes "/")).
  unfold parseLine in H. fold parts in H.
  assert (parts = fields (rn "/") line) as Hparts by apply Split_fields.
  clearbody parts.
  destruct (last parts) as [lst|] eqn:Hlast.
  2: { apply last_None in Hlast. rewrite Hparts in Hlast.
       by apply fields_nonempty in Hlast. }
  rewrite (index_last _ _ Hlast) in H. simpl in H.
  destruct (decide (lst ≠ [])) as [|Hnil]; [done|].
  assert (lst = []) as -> by (destruct lst; [done | by destruct Hnil]).
  apply go_bind_Panic in H as [H|(r1 & Hseq & H)].
  { left. unfold sequenceOf in H.
    apply go_bind_Panic in H as [H|(seq & _ & H)];
      [|by destruct (HasSuffix seq (runes "X"))].
    apply index_Panic in H.
    assert (parts = [[]]) as Hone.
    { clear Hparts. destruct parts as [|a [|b parts']]; [done | by simplify_eq/= |].
      unfold len in H. simpl length in H. lia. }
    destruct (fields_spec (rn "/") line) as [_ HJ].
    by rewrite <-Hparts, Hone in HJ. }
  assert (2 ≤ len parts) as Hlen2.
  { unfold sequenceOf in Hseq. apply go_bind_Done in Hseq as (seq & Hs & _).
    apply index_Done in Hs. lia. }
  destruct (lookup_lt_is_Some_2 parts 0) as [p0 Hp0]; [unfold len in Hlen2; lia|].
  destruct (lookup_lt_is_Some_2 parts 1) as [p1 Hp1]; [unfold len in Hlen2; lia|].
  assert (index parts 0 = Done p0) as Hi0 by (by apply index_Done).
  assert (index parts 1 = Done p1) as Hi1 by (by apply index_Done).
  rewrite Hi0 in H. simpl in H.
  destruct (parseKey p0) as [[kanji kana] [err|]] eqn:Hkey; [done|].
  rewrite Hi1 in H. simpl in H.
  destruct (entryDetails_total (set_Keys r1 kanji kana) parts p1 [p1] Hp1)
    as [[[r2 glosses0] err] Hdet].
  rewrite Hdet in H. simpl in H. destruct err as [err|]; [done|].
  destruct (restGlosses_total parts glosses0) as [glosses Hrest].
  rewrite Hrest in H. simpl in H.
  destruct (glossLoop (set_Gloss r2 []) glosses) as [r3 [err|]] eqn:Hloop; [done|].
  apply go_bind_Panic in H as [H|(r4 & _ & H)].
  2: { destruct (fixKeys_Forall2 (Entry_Kanji r4)) as (ks & Hks & _).
       destruct (fixKeys_Forall2 (Entry_Kana r4)) as (as' & Has & _).
       rewrite Hks in H. simpl in H. rewrite Has in H. done. }
  right. unfold singleGloss in H.
  destruct (decide (len parts ≤ 4)) as [Hlen|]; [|done].
  assert (Entry_Gloss r3 = []) as Hg3.
  { destruct (Entry_Gloss r3) as [|g gs] eqn:Hg; [done|].
    unfold index in H. simpl in H. rewrite Hg in H. done. }
  assert (glosses = [p1]) as ->.
  { unfold entryDetails in Hdet. rewrite decide_False in Hdet by lia.
    unfold restGlosses in Hrest. rewrite decide_False in Hrest by lia.
    by simplify_eq. }
  apply glossLoop_single_empty in Hloop as ->; [|done..].
  split_and!; [done..|]. by exists p0, kanji, kana.
Qed.

Lemma parseLine_panic_iff_witness :
  parseLine (runes "A;B [x] /(P)/9X/") = Panic.
Proof.
  apply (proj2 (parseLine_panic_iff (runes "A;B [x] /(P)/9X/"))). right.
  split_and!; [by vm_compute..|].
  exists (runes "A;B [x] "), [runes "A"; runes "B"], [runes "x"].
  split; by vm_compute.
Defined.

(** ** More on the batch driver *)

Lemma records_app l1 l2 : records (l1 ++ l2) = records l1 ++ records l2.
Proof. unfold records. by rewrite fmap_app, join_app. Qed.

Lemma records_length lines : (length (records lines) ≤ length lines)%nat.
Proof.
  induction lines as [|l lines IH]; [done|].
  rewrite records_cons, length_app. unfold recordOf.
  destruct (parseLine l) as [[e [err|]]|]; simpl; lia.
Qed.

(** What the loop has done when it ends: it has read [k] lines, kept the
    records of those that parse, and stopped early only on a line that fails
    with a number outside the skip-list. *)
Lemma ParseLoop_Done line result lines line' result' err :
  ParseLoop line result lines = Done (line', result', err) →
  ∃ k : nat,
    (k ≤ length lines)%nat ∧ line' = line + Z.of_nat k
    ∧ result' = result ++ records (take k lines)
    ∧ match err with
      | None => k = length lines
      | Some e =>
          ∃ l entry cause,
            (0 < k)%nat ∧ lines !! pred k = Some l
            ∧ parseLine l = Done (entry, Some cause)
            ∧ e = ErrParseLine line' cause ∧ (line' ∉ blacklist)
      end.
Proof.
  revert line result. induction lines as [|l lines IH]; intros line result H.
  - simpl in H. simplify_eq. exists 0%nat.
    split_and!; [done | lia | by rewrite app_nil_r | done].
  - cbn [ParseLoop] in H. apply go_bind_Done in H as ([entry [cause|]] & Hl & H).
    + rewrite blacklist_test in H.
      destruct (decide (line + 1 ∈ blacklist)) as [Hin|Hin].
      * rewrite bool_decide_eq_true_2 in H by done.
        apply IH in H as (k & Hk & -> & -> & Herr). exists (S k).
        split_and!; [simpl; lia | lia | |].
        { cbn [take]. rewrite records_cons. unfold recordOf. by rewrite Hl. }
        destruct err as [e|]; [|by rewrite Herr].
        destruct Herr as (l' & entry' & cause' & Hpos & Hlk & Hl' & -> & Hnot).
        exists l', entry', cause'.
        replace (line + Z.of_nat (S k)) with (line + 1 + Z.of_nat k) by lia.
        split_and!; [lia | | done..].
        destruct k; [lia | done].
      * rewrite bool_decide_eq_false_2 in H by done. simplify_eq.
        exists 1%nat. split_and!; [simpl; lia | lia | |].
        { cbn [take]. rewrite records_cons. unfold recordOf. rewrite Hl.
          rewrite take_0. change (records []) with (@nil Entry).
          by rewrite !app_nil_r. }
        exists l, entry, cause. split_and!; [lia | done..].
    + apply IH in H as (k & Hk & -> & -> & Herr). exists (S k).
      split_and!; [simpl; lia | lia | |].
      { cbn [take]. rewrite records_cons. unfold recordOf. rewrite Hl.
        by rewrite <-app_assoc. }
      destruct err as [e|]; [|by rewrite Herr].
      destruct Herr as (l' & entry' & cause' & Hpos & Hlk & Hl' & -> & Hnot).
      exists l', entry', cause'.
      replace (line + Z.of_nat (S k)) with (line + 1 + Z.of_nat k) by lia.
      split_and!; [lia | | done..].
      destruct k; [lia | done].
Qed.

(** X14.  Whatever [Parse] returns, the records are those of the lines that
    parse among the first [k] lines, in input order, for some [k]; there are
    at most [k] of them.  Without error, [k] is the number of lines and the
    scanner reported nothing.  A parse failure carries the number [k] of a
    line that is not in the skip-list and on which [parseLine] really fails
    with the cause reported.  A read failure is reported only after all the
    lines have been handled, with their number.  No other error is
    returned. *)
Theorem Parse_result_sound input es err :
  Parse input = Done (es, err) →
  let lines := scan_lines input in
  ∃ k : nat,
    (k ≤ length lines)%nat ∧ es = records (take k lines)
    ∧ (length es ≤ k)%nat
    ∧ match err with
      | None => k = length lines ∧ scan_err input = None
      | Some (ErrParseLine n cause) =>
          n = Z.of_nat k ∧ (n ∉ blacklist)
          ∧ ∃ l entry, (0 < k)%nat ∧ lines !! pred k = Some l
              ∧ parseLine l = Done (entry, Some cause)
      | Some (ErrPastEOF n (ErrScanner msg)) =>
          k = length lines ∧ n = len lines ∧ scan_err input = Some msg
      | Some _ => False
      end.
Proof.
  intros H lines. unfold Parse in H. fold lines in H.
  apply go_bind_Done in H as ([[line' result'] err'] & Hloop & H).
  apply ParseLoop_Done in Hloop as (k & Hk & -> & -> & Herr).
  rewrite app_nil_l in H. exists k.
  assert ((length (records (take k lines)) ≤ k)%nat) as Hlen.
  { etrans; [apply records_length|]. rewrite length_take. lia. }
  destruct err' as [e|].
  - simplify_eq. destruct Herr as (l & entry & cause & Hpos & Hlk & Hl & -> & Hnot).
    rewrite Z.add_0_l in *. split_and!; [done..|]. by exists l, entry.
  - destruct (scan_err input) as [msg|] eqn:Hs; simplify_eq;
      rewrite ?Z.add_0_l; split_and!; done.
Qed.

Lemma Parse_result_sound_witness :
  ∃ k : nat,
    (k ≤ 3)%nat
    ∧ [mkEntry [runes "A"] [] [N] [mkGloss (runes "foo") [] []] (runes "1") false]
      = records (take k [runes "A /(n) foo/1/"; runes "B /bar"; runes "C /baz/3/"])
    ∧ (1 ≤ k)%nat
    ∧ 2 = Z.of_nat k ∧ (2 ∉ blacklist)
    ∧ ∃ l entry, (0 < k)%nat
        ∧ [runes "A /(n) foo/1/"; runes "B /bar"; runes "C /baz/3/"] !! pred k = Some l
        ∧ parseLine l = Done (entry, Some (ErrLastNotBlank (runes "bar"))).
Proof.
  apply (Parse_result_sound
           (mkScanner [runes "A /(n) foo/1/"; runes "B /bar"; runes "C /baz/3/"] None)
           [mkEntry [runes "A"] [] [N] [mkGloss (runes "foo") [] []] (runes "1") false]
           (Some (ErrParseLine 2 (ErrLastNotBlank (runes "bar"))))).
  by vm_compute.
Defined.

(** ** More on the taxonomy *)

Lemma init_loop_lookup_inv order d s :
  init_loop order !! s = Some d → (d, s) ∈ order.
Proof.
  induction order as [|p order IH] using rev_ind; [done|].
  rewrite init_loop_snoc. destruct (decide (p.2 = s)) as [<-|Hne].
  - rewrite lookup_insert_eq. intros; simplify_eq.
    apply elem_of_app. right. destruct p. set_solver.
  - rewrite lookup_insert_ne by done. intros H. apply elem_of_app. left. by apply IH.
Qed.

(** X15.  [DetailFor] holds the codes of [DetailString] and nothing else: a
    string that [DetailFor] maps to an annotation is the code of that
    annotation; so the classifier reports an annotation only for one of the
    102 codes, and then the annotation looked up is the one with that code. *)
Theorem DetailFor_only_codes :
  (∀ s A, DetailFor !! s = Some A → DetailString !! A = Some s)
  ∧ (∀ s, (parseIdentifier s).1 = detail →
       ∃ A, DetailString !! A = Some s ∧ DetailFor_at (parseIdentifier s).2 = A)
  ∧ size DetailFor = 102%nat.
Proof.
  assert (Hinv : ∀ s A, DetailFor !! s = Some A → DetailString !! A = Some s).
  { intros s A H. apply init_loop_lookup_inv in H. by apply elem_of_map_to_list. }
  split_and!; [done| |by vm_compute].
  intros s Hs. destruct (parseIdentifier s) as [class identifier] eqn:E.
  simpl in Hs. subst.
  destruct (parseIdentifier_detail _ _ _ E eq_refl) as (-> & A & HA & Hat).
  exists A. split; [by apply Hinv | done].
Qed.

Lemma DetailFor_only_codes_witness : DetailString !! Vs_c = Some (runes "vs-c").
Proof.
  apply (proj1 DetailFor_only_codes (runes "vs-c") Vs_c). by vm_compute.
Defined.

(** ** Failures *)

(** X16.  A structural tag must be followed by a space: when a gloss opens
    with a structural tag that is directly followed by any other rune, the
    gloss fails, whatever comes after. *)
Theorem parseGloss_tag_without_space t c rest c' :
  isTag t → c ≠ rn " " →
  last (c :: rest) = Some c' → IsSpace c' = false →
  (parseGloss (parenthetical t ++ c :: rest)).2 ≠ None.
Proof.
  intros Ht Hc Hl Hc'. unfold parseGloss.
  assert (TrimSpace (parenthetical t ++ c :: rest) = parenthetical t ++ c :: rest) as ->.
  { unfold parenthetical. rewrite <-app_comm_cons.
    apply last_Some in Hl as [r' Hr']. rewrite Hr'.
    eapply (TrimSpace_id _ _ _ c'); [|done..].
    rewrite app_comm_cons, app_assoc. reflexivity. }
  destruct (decide (gv_state _ ≠ definitionGS)); cbn [snd]; [done|].
  apply glossRun_err_iff. right. exists (parenthetical t), c, rest.
  split_and!; [done| |done].
  by destruct (glossRun_tag glossInit t eq_refl eq_refl Ht).
Qed.

Lemma parseGloss_tag_without_space_witness :
  (parseGloss (runes "(n)foo (adj-i) bar")).2 ≠ None.
Proof.
  apply (parseGloss_tag_without_space (runes "n") (rn "f")
           (runes "oo (adj-i) bar") (rn "r")); compute_done.
Defined.


Lemma parseKey_error_kind key kanji kana err :
  parseKey key = (kanji, kana, Some err) →
  (∃ st k, err = ErrKeyState st k) ∨ (∃ k c st, err = ErrKeyCapture k c st).
Proof.
  unfold parseKey. destruct (negb _).
  - intros; simplify_eq. left. by eexists _, _.
  - destruct (decide _); intros; simplify_eq. right. by eexists _, _, _.
Qed.

Lemma entryDetails_error result parts p1 r glosses err :
  parts !! 1%nat = Some p1 →
  entryDetails result parts [p1] = Done (r, glosses, Some err) →
  4 < len parts
  ∧ ∃ f0 f1 def ds xs,
      Split p1 (runes "(1)") = [f0; f1]
      ∧ ((∃ cause, parseGloss (f0 ++ runes "fake definition") = (def, ds, xs, Some cause)
                   ∧ err = ErrEntryDetails cause)
         ∨ (parseGloss (f0 ++ runes "fake definition") = (def, ds, xs, None)
            ∧ xs ≠ [] ∧ err = ErrGlobalXref)).
Proof.
  intros Hp1. unfold entryDetails.
  destruct (decide (4 < len parts)) as [Hlen|Hlen]; [|by intros; simplify_eq].
  assert (index parts 1 = Done p1) as -> by (by apply index_Done).
  simpl. destruct (decide (len (Split p1 (runes "(1)")) = 2)) as [H2|H2];
    [|by intros; simplify_eq].
  destruct (Split p1 (runes "(1)")) as [|f0 [|f1 [|]]] eqn:Hsplit;
    try (unfold len in H2; simpl in H2; lia).
  unfold index; simpl.
  destruct (parseGloss (f0 ++ runes "fake definition"))
    as [[[def ds] xs] [cause|]] eqn:Hpg.
  - intros; simplify_eq. split; [done|]. exists f0, f1, def, ds, xs.
    split; [done|]. left. by exists cause.
  - destruct xs as [|x xs]; simpl; [by intros; simplify_eq|].
    intros; simplify_eq. split; [done|]. exists f0, f1, def, ds, (x :: xs).
    split; [done|]. by right.
Qed.

Lemma glossLoop_error result glosses r err :
  glossLoop result glosses = (r, Some err) →
  ∃ g def ds xs cause,
    g ∈ glosses ∧ g ≠ runes "(P)"
    ∧ parseGloss g = (def, ds, xs, Some cause) ∧ err = ErrGloss g cause.
Proof.
  revert result. induction glosses as [|gloss glosses IH]; intros result H;
    simpl in H; [done|].
  destruct (decide (gloss = runes "(P)")).
  - apply IH in H as (g & def & ds & xs & cause & Hin & ?).
    exists g, def, ds, xs, cause. split; [by right | done].
  - destruct (parseGloss gloss) as [[[def ds] xs] [cause|]] eqn:Hpg.
    + simplify_eq. exists gloss, def, ds, xs, cause. split; [by left | done].
    + apply IH in H as (g & def' & ds' & xs' & cause & Hin & ?).
      exists g, def', ds', xs', cause. split; [by right | done].
Qed.

(** X17.  Every failure that [parseLine] returns names its cause.  The
    failure about the last component carries the last part of the line,
    which is not empty.  A key failure is the failure of [parseKey] on the
    first part.  The failure about the entry details wraps the failure of the
    gloss parser on the text before the marker [(1)], and the failure about
    a global cross-reference means that this text parses with a
    cross-reference; both occur only with more than four parts.  A gloss
    failure carries a definition field other than [(P)], the first one being
    taken after the redistribution, and the failure of the gloss parser on
    it.  No other failure is returned. *)
Theorem parseLine_failure_cause line e err :
  parseLine line = Done (e, Some err) →
  let parts := Split line (runes "/") in
  match err with
  | ErrLastNotBlank l => last parts = Some l ∧ l ≠ []
  | ErrKeyState _ _ | ErrKeyCapture _ _ _ =>
      ∃ p0 kanji kana,
        parts !! 0%nat = Some p0 ∧ parseKey p0 = (kanji, kana, Some err)
  | ErrEntryDetails cause =>
      4 < len parts
      ∧ ∃ p1 f0 f1 def ds xs,
          parts !! 1%nat = Some p1 ∧ Split p1 (runes "(1)") = [f0; f1]
          ∧ parseGloss (f0 ++ runes "fake definition") = (def, ds, xs, Some cause)
  | ErrGlobalXref =>
      4 < len parts
      ∧ ∃ p1 f0 f1 def ds xs,
          parts !! 1%nat = Some p1 ∧ Split p1 (runes "(1)") = [f0; f1]
          ∧ parseGloss (f0 ++ runes "fake definition") = (def, ds, xs, None)
          ∧ xs ≠ []
  | ErrGloss g cause =>
      g ≠ runes "(P)"
      ∧ (∃ def ds xs, parseGloss g = (def, ds, xs, Some cause))
      ∧ ∃ p1 first,
          parts !! 1%nat = Some p1
          ∧ (first = p1 ∨ ∃ f0, Split p1 (runes "(1)") = [f0; first])
          ∧ g ∈ first :: middleFields parts
  | _ => False
  end.
Proof.
  intros H parts. unfold parseLine in H. fold parts in H.
  apply go_bind_Done in H as (lst & Hlast & H).
  destruct (decide (lst ≠ [])) as [Hne|Hnil].
  { simplify_eq. split; [|done]. apply index_Done in Hlast as [_ Hlast].
    rewrite last_lookup, <-Hlast. f_equal. unfold len. lia. }
  apply go_bind_Done in H as (r1 & Hseq & H).
  apply go_bind_Done in H as (p0 & Hp0 & H).
  apply index_Done in Hp0 as [_ Hp0].
  destruct (parseKey p0) as [[kanji kana] [kerr|]] eqn:Hkey.
  { simplify_eq.
    destruct (parseKey_error_kind _ _ _ _ Hkey) as [(st & k & ->)|(k & c & st & ->)];
      by exists p0, kanji, kana. }
  apply go_bind_Done in H as (p1 & Hp1 & H).
  apply index_Done in Hp1 as [_ Hp1].
  apply go_bind_Done in H as ([[r2 glosses0] [derr|]] & Hdet & H).
  { simplify_eq.
    destruct (entryDetails_error _ _ _ _ _ _ Hp1 Hdet)
      as (Hlen & f0 & f1 & def & ds & xs & Hsplit
          & [(cause & Hpg & ->)|(Hpg & Hxs & ->)]);
      (split; [done|]); by exists p1, f0, f1, def, ds, xs. }
  apply go_bind_Done in H as (glosses & Hrest & H).
  apply restGlosses_Done in Hrest as ->.
  destruct (glossLoop (set_Gloss r2 []) (glosses0 ++ middleFields parts))
    as [r3 [gerr|]] eqn:Hloop.
  - simplify_eq.
    apply glossLoop_error in Hloop as (g & def & ds & xs & cause & Hin & Hne & Hpg & ->).
    split_and!; [done | by exists def, ds, xs |].
    destruct (entryDetails_Done _ _ _ _ _ Hp1 Hdet)
      as [(Hlen & f0 & f1 & def' & details & Hsplit & _ & _ & ->)|(_ & _ & ->)].
    + exists p1, f1. split_and!; [done | right; by exists f0 | done].
    + exists p1, p1. split_and!; [done | by left | done].
  - apply go_bind_Done in H as (r4 & _ & H).
    apply go_bind_Done in H as (kanji' & _ & H).
    apply go_bind_Done in H as (kana' & _ & H). done.
Qed.

Lemma parseLine_failure_cause_witness :
  runes "(n)x foo" ≠ runes "(P)"
  ∧ (∃ def ds xs, parseGloss (runes "(n)x foo") = (def, ds, xs, Some (ErrClosed (rn "x"))))
  ∧ ∃ p1 first,
      Split (runes "A /bar/(n)x foo/1/") (runes "/") !! 1%nat = Some p1
      ∧ (first = p1 ∨ ∃ f0, Split p1 (runes "(1)") = [f0; first])
      ∧ runes "(n)x foo"
        ∈ first :: middleFields (Split (runes "A /bar/(n)x foo/1/") (runes "/")).
Proof.
  apply (parseLine_failure_cause (runes "A /bar/(n)x foo/1/")
           (mkEntry [runes "A"] [] [] [mkGloss (runes "bar") [] []] (runes "1") false)
           (ErrGloss (runes "(n)x foo") (ErrClosed (rn "x")))).
  by vm_compute.
Defined.
